(** * Morse-code sender (lab5_3/send.py): embedding and verification

    The script drives one GPIO pin with timed pulses.  Everything it does is
    an effect (a GPIO call, a [time.sleep], a [print]) or an exception
    ([SystemExit], [ValueError], [KeyboardInterrupt]), so the embedding is a
    small state-and-exception monad over a world that records the effects in
    order.  Durations are Python floats, that is binary64 numbers, computed
    with the machine's multiplication and subtraction; the time that passes
    is the exact sum of the values slept. *)

From Stdlib Require Import ZArith NArith QArith Lia String Ascii DecimalString.
From Stdlib Require Import Floats.PrimFloat Floats.SpecFloat Floats.FloatOps.
From stdpp Require Import base option list gmap.

Local Open Scope Z_scope.

(** ** Python strings *)

(** A Python [str] is a sequence of Unicode code points. *)
Abbreviation str := (list N) (only parsing).

Definition ord (c : ascii) : N := N_of_ascii c.

(** A string literal of the source (the literals of the script are ASCII). *)
Definition lit (s : string) : str := ord <$> list_ascii_of_string s.

(** [str(n)] for an integer. *)
Definition str_of_int (n : Z) : str := lit (NilZero.string_of_int (Z.to_int n)).

(** [str.upper] and [str.lower], code point by code point.  The mapping is
    Unicode's for Basic Latin and Latin-1, and outside them for the two code
    points whose uppercase form is a Basic Latin letter (U+0131 dotless i and
    U+017F long s).  Every other code point is left as it is, where
    [str.upper] may give another code point or several (U+FB05 gives ST):
    neither that form nor the code point itself is the space or a key of the
    table, so [send_character] takes the same branch on both.  Nothing
    below depends on the uppercase form of such a code point beyond that. *)
Definition upper_cp (c : N) : str :=
  if bool_decide (97 ≤ c ≤ 122)%N then [c - 32]%N
  else if bool_decide (c = 181)%N then [924]%N
  else if bool_decide (c = 223)%N then [83; 83]%N
  else if bool_decide (224 ≤ c ≤ 254 ∧ c ≠ 247)%N then [c - 32]%N
  else if bool_decide (c = 255)%N then [376]%N
  else if bool_decide (c = 305)%N then [73]%N
  else if bool_decide (c = 383)%N then [83]%N
  else [c].

Definition upper (s : str) : str := s ≫= upper_cp.

Definition lower_cp (c : N) : str :=
  if bool_decide (65 ≤ c ≤ 90)%N then [c + 32]%N
  else if bool_decide (192 ≤ c ≤ 222 ∧ c ≠ 215)%N then [c + 32]%N
  else [c].

Definition lower (s : str) : str := s ≫= lower_cp.

(** A dict literal with string keys and values. *)
Definition dict_lit (kvs : list (string * string)) : gmap str str :=
  list_to_map (prod_map lit lit <$> kvs).

(** ** Constants of the script *)

Definition LED_PIN : Z := 17.

Definition MORSE_TABLE : list (string * string) :=
  [ ("A", ".-");    ("B", "-...");  ("C", "-.-.");  ("D", "-..");   ("E", ".");
    ("F", "..-.");  ("G", "--.");   ("H", "....");  ("I", "..");    ("J", ".---");
    ("K", "-.-");   ("L", ".-..");  ("M", "--");    ("N", "-.");    ("O", "---");
    ("P", ".--.");  ("Q", "--.-");  ("R", ".-.");   ("S", "...");   ("T", "-");
    ("U", "..-");   ("V", "...-");  ("W", ".--");   ("X", "-..-");  ("Y", "-.--");
    ("Z", "--..");
    ("0", "-----"); ("1", ".----"); ("2", "..---"); ("3", "...--"); ("4", "....-");
    ("5", "....."); ("6", "-...."); ("7", "--..."); ("8", "---.."); ("9", "----.");
    (" ", "/") ]%string.

Definition MORSE_CODE : gmap str str := dict_lit MORSE_TABLE.

(** ** Effects *)

Inductive level := LOW | HIGH.
Inductive numbering := BCM | BOARD.
Inductive direction := OUT | IN.

(** One constructor per library call the script makes.  [print text end_]
    writes [text] followed by [end_] to standard output. *)
Inductive event :=
| GPIO_setmode (mode : numbering)
| GPIO_setwarnings (flag : bool)
| GPIO_setup (pin : Z) (dir : direction)
| GPIO_output (pin : Z) (value : level)
| GPIO_cleanup
| time_sleep (secs : float)
| print_ (text end_ : str).

Inductive exn :=
| KeyboardInterrupt
| ValueError
| SystemExit (code : Z).

Inductive outcome (A : Type) :=
| Returns (a : A)
| Raises (e : exn).
Arguments Returns {A} a.
Arguments Raises {A} e.

(** The world: the effects performed so far, oldest first, and the pending
    user interrupt.  [sigint = Some k] means that Ctrl-C arrives after [k]
    more effects: the next library call is then not performed and raises
    [KeyboardInterrupt] in its place (a sleep cut short touches no pin). *)
Record world := World { trace : list event; sigint : option nat }.

Definition M (A : Type) : Type := world → outcome A * world.

#[global] Instance M_ret : MRet M := λ A a w, (Returns a, w).

#[global] Instance M_bind : MBind M := λ A B f m w,
  match m w with
  | (Returns a, w') => f a w'
  | (Raises e, w') => (Raises e, w')
  end.

Definition raise {A} (e : exn) : M A := λ w, (Raises e, w).

Definition perform (e : event) : M unit := λ w,
  match sigint w with
  | Some O => (Raises KeyboardInterrupt, World (trace w) None)
  | Some (S k) => (Returns (), World (trace w ++ [e]) (Some k))
  | None => (Returns (), World (trace w ++ [e]) None)
  end.

(** [for x in l: body x] *)
Fixpoint for_each {A} (l : list A) (body : A → M unit) : M unit :=
  match l with
  | [] => mret ()
  | x :: l' => body x ;; for_each l' body
  end.

(** [try: body  except <exception matching catches>: handler] *)
Definition try_except {A} (body : M A) (catches : exn → bool) (handler : M A) : M A :=
  λ w, match body w with
       | (Raises e, w') => if catches e then handler w' else (Raises e, w')
       | r => r
       end.

(** [try: body  finally: final]: [final] runs on every way out of [body];
    an exception of [final] replaces the pending one. *)
Definition try_finally {A} (body : M A) (final : M unit) : M A :=
  λ w, match body w with
       | (r, w') => match final w' with
                    | (Returns _, w'') => (r, w'')
                    | (Raises e, w'') => (Raises e, w'')
                    end
       end.

Definition is_KeyboardInterrupt (e : exn) : bool :=
  match e with KeyboardInterrupt => true | _ => false end.
Definition is_ValueError (e : exn) : bool :=
  match e with ValueError => true | _ => false end.

Definition sys_exit {A} (code : Z) : M A := raise (SystemExit code).

(** [print(text)], whose [end] is a newline. *)
Definition print (text : str) : M unit := perform (print_ text [10%N]).

(** ** Running a program and observing its effects *)

Definition quiet : world := World [] None.

(** The effects of an uninterrupted run from the start. *)
Definition events_of {A} (m : M A) : list event := trace (m quiet).2.

(** The program that performs the given effects one after the other. *)
Definition play (E : list event) : M unit := for_each E perform.

(** [performs m E]: [m] is straight-line code; in every world, also with
    an interrupt pending, it behaves as the sequence [E] of library calls. *)
Definition performs (m : M unit) (E : list event) : Prop := ∀ w, m w = play E w.

(** The exit status of the process for an outcome of [main]. *)
Definition exit_code (r : outcome unit) : Z :=
  match r with
  | Returns _ => 0
  | Raises (SystemExit code) => code
  | Raises KeyboardInterrupt => 130
  | Raises ValueError => 1
  end.

Definition is_pin_event (e : event) : bool :=
  match e with
  | GPIO_setmode _ | GPIO_setwarnings _ | GPIO_setup _ _ | GPIO_output _ _
  | GPIO_cleanup => true
  | time_sleep _ | print_ _ _ => false
  end.

(** The level the LED pin was last driven to ([None]: not driven yet). *)
Definition line_step (st : option level) (e : event) : option level :=
  match e with
  | GPIO_output pin value => if decide (pin = LED_PIN) then Some value else st
  | _ => st
  end.

Definition line (tr : list event) : option level := foldl line_step None tr.

Definition is_deassert (e : event) : bool :=
  match e with
  | GPIO_output pin LOW => bool_decide (pin = LED_PIN)
  | _ => false
  end.

(** How many times the trace drives the LED pin low. *)
Definition deasserts (tr : list event) : nat := length (filter is_deassert tr).

(** The event drives a pin high. *)
Definition is_assert (e : event) : bool :=
  match e with GPIO_output _ HIGH => true | _ => false end.

(** [pulsed tr]: the trace drives the pin high only to start a pulse, that
    is, a high on the LED pin, one sleep, a low on the LED pin. *)
Inductive pulsed : list event → Prop :=
| pulsed_nil : pulsed []
| pulsed_pulse d tr :
    pulsed tr →
    pulsed (GPIO_output LED_PIN HIGH :: time_sleep d :: GPIO_output LED_PIN LOW :: tr)
| pulsed_other e tr : is_assert e = false → pulsed tr → pulsed (e :: tr).

(** [in_pulse A B]: at the point of a trace between the effects [A] done and
    the effects [B] to come, a pulse is in progress: the pin has just been
    driven high, or the sleep of the pulse is over and the pin is driven low
    next. *)
Definition in_pulse (A B : list event) : Prop :=
  ∃ A' d B',
    (A = A' ++ [GPIO_output LED_PIN HIGH]
     ∧ B = time_sleep d :: GPIO_output LED_PIN LOW :: B')
    ∨ (A = A' ++ [GPIO_output LED_PIN HIGH; time_sleep d]
       ∧ B = GPIO_output LED_PIN LOW :: B').

(** Everything written to standard output. *)
Definition written (e : event) : str :=
  match e with print_ text end_ => text ++ end_ | _ => [] end.

Definition stdout (tr : list event) : str := tr ≫= written.

(** *** The waveform on the pin

    What an oscilloscope on the LED shows: the pulses (time the line is
    high) and the gaps between one pulse and the next (time the line is low),
    in order, with their durations.  The low time before the first pulse
    and after the last one is not a gap. *)
Inductive mark :=
| Pulse (secs : Q)
| Gap (secs : Q).

(** The number a binary64 float stands for, as a rational: sign, mantissa
    and exponent of a finite float (0 for an infinity or a NaN, which have
    none). *)
Definition SF2Q (f : spec_float) : Q :=
  match f with
  | S754_finite s m e =>
      let n := if s then Zneg m else Zpos m in
      if (0 <=? e)%Z then inject_Z (n * 2 ^ e) else n # (2 ^ Z.to_pos (- e))%positive
  | _ => 0%Q
  end.

Definition exact (d : float) : Q := SF2Q (Prim2SF d).

Inductive phase :=
| Idle                       (* no pulse yet *)
| On (elapsed : option Q)    (* in a pulse *)
| Off (elapsed : option Q).  (* after a pulse *)

(** Time adds up exactly: a sleep lengthens the interval by its value. *)
Definition elapse (t : option Q) (d : float) : option Q :=
  Some (match t with None => exact d | Some a => (a + exact d)%Q end).

Definition duration (t : option Q) : Q := default 0%Q t.

Definition wave_step (st : phase) (e : event) : phase * list mark :=
  match e with
  | GPIO_output pin HIGH =>
      if decide (pin = LED_PIN) then
        match st with
        | Idle => (On None, [])
        | Off t => (On None, [Gap (duration t)])
        | On t => (On t, [])
        end
      else (st, [])
  | GPIO_output pin LOW =>
      if decide (pin = LED_PIN) then
        match st with
        | On t => (Off None, [Pulse (duration t)])
        | _ => (st, [])
        end
      else (st, [])
  | time_sleep d =>
      match st with
      | Idle => (Idle, [])
      | On t => (On (elapse t d), [])
      | Off t => (Off (elapse t d), [])
      end
  | _ => (st, [])
  end.

Fixpoint waveform_from (st : phase) (tr : list event) : list mark :=
  match tr with
  | [] => []
  | e :: tr' => (wave_step st e).2 ++ waveform_from (wave_step st e).1 tr'
  end.

Definition phase_after (st : phase) (tr : list event) : phase :=
  foldl (λ st e, (wave_step st e).1) st tr.

Definition waveform (tr : list event) : list mark := waveform_from Idle tr.

Definition pulses (tr : list event) : list Q :=
  omap (λ m, match m with Pulse d => Some d | Gap _ => None end) (waveform tr).

Definition gaps (tr : list event) : list Q :=
  omap (λ m, match m with Gap d => Some d | Pulse _ => None end) (waveform tr).

(** *** Character classes *)

(** The characters the specification calls supported:
    [A]-[Z], [a]-[z], [0]-[9] and the space. *)
Definition is_alnum (c : N) : bool :=
  bool_decide (65 ≤ c ≤ 90 ∨ 97 ≤ c ≤ 122 ∨ 48 ≤ c ≤ 57)%N.

Definition is_supported (c : N) : bool := is_alnum c || bool_decide (c = 32%N).

(** The code points of ['.'], ['-'] and [' ']. *)
Definition is_pattern_char (c : N) : bool :=
  bool_decide (c = 46 ∨ c = 45 ∨ c = 32)%N.

(** [int] on an optional sign and ASCII decimal digits. *)
Definition digit_of (c : N) : option Z :=
  if bool_decide (48 ≤ c ≤ 57)%N then Some (Z.of_N c - 48) else None.

Definition digits_value (s : str) : option Z :=
  foldl (λ acc c, a ← acc; d ← digit_of c; Some (10 * a + d)) (Some 0) s.

Definition int_ascii (s : str) : option Z :=
  match s with
  | [] => None
  | c :: s' =>
      if decide (c = ord "-") then
        if decide (s' = []) then None else Z.opp <$> digits_value s'
      else if decide (c = ord "+") then
        if decide (s' = []) then None else digits_value s'
      else digits_value s
  end.

(** ** The script *)

(** The value the script gives [DOT]: the binary64 number nearest to 0.1. *)
#[warnings="-inexact-float"]
Definition DOT_script : float := 0.1%float.

Section Sender.

(** The base unit: the script sets [DOT = 0.1] (seconds); every other
    duration is derived from it, so the unit is a parameter here, and
    [DOT_script] is the script's. *)
Variable DOT : float.

(** Python's [int] on a string: [None] where it raises [ValueError]. *)
Variable int : str → option Z.

Definition DASH : float := (DOT * 3)%float.
Definition SYMBOL_SPACE : float := DOT.
Definition LETTER_SPACE : float := (DOT * 3)%float.
Definition WORD_SPACE : float := (DOT * 7)%float.

Definition setup_gpio : M unit :=
  perform (GPIO_setmode BCM) ;;
  perform (GPIO_setwarnings false) ;;
  perform (GPIO_setup LED_PIN OUT) ;;
  perform (GPIO_output LED_PIN LOW).

Definition cleanup_gpio : M unit :=
  perform (GPIO_output LED_PIN LOW) ;;
  perform GPIO_cleanup.

Definition send_dot : M unit :=
  perform (GPIO_output LED_PIN HIGH) ;;
  perform (time_sleep DOT) ;;
  perform (GPIO_output LED_PIN LOW) ;;
  perform (time_sleep SYMBOL_SPACE).

Definition send_dash : M unit :=
  perform (GPIO_output LED_PIN HIGH) ;;
  perform (time_sleep DASH) ;;
  perform (GPIO_output LED_PIN LOW) ;;
  perform (time_sleep SYMBOL_SPACE).

(** The body of the symbol loop of [send_character]. *)
Definition send_symbol (symbol : N) : M unit :=
  if decide ([symbol] = lit ".") then send_dot
  else if decide ([symbol] = lit "-") then send_dash
  else mret ().

Definition send_character (char : str) : M unit :=
  let char := upper char in
  if decide (char = lit " ") then
    perform (time_sleep (WORD_SPACE - LETTER_SPACE)%float)
  else
    match MORSE_CODE !! char with
    | None => mret ()
    | Some morse =>
        perform (print_ morse (lit " ")) ;;
        for_each morse send_symbol ;;
        perform (time_sleep (LETTER_SPACE - SYMBOL_SPACE)%float)
    end.

Definition send_message (message : str) : M unit :=
  for_each message (λ char, send_character [char]) ;;
  print [].

(** [range(n)] *)
Definition range (n : Z) : list Z := seqZ 0 n.

(** The body of the [try] block of [main]. *)
Definition transmission (repetitions : Z) (message : str) : M unit :=
  setup_gpio ;;
  for_each (range repetitions) (λ i, send_message message) ;;
  print (lit "Transmission complete!").

Definition main (argv : list str) : M unit :=
  (if bool_decide (length argv < 3)%nat then
     print (lit "Usage: python3 send.py <repetitions> <message>") ;;
     print (lit "Example: python3 send.py 4 " ++ [34%N] ++ lit "hello ESP32" ++ [34%N]) ;;
     sys_exit 1
   else mret ()) ;;
  '(repetitions, message) ←
    try_except
      (repetitions ← from_option mret (raise ValueError) (int (argv !!! 1%nat)) ;
       mret (repetitions, argv !!! 2%nat))
      is_ValueError
      (print (lit "Error: First argument must be a number") ;;
       sys_exit 1) ;
  (if bool_decide (repetitions < 1) then
     print (lit "Error: Number of repetitions must be at least 1") ;;
     sys_exit 1
   else mret ()) ;;
  print (lit "Sending message '" ++ message ++ lit "' " ++ str_of_int repetitions
         ++ lit " time(s)") ;;
  print (lit "Morse code pattern:") ;;
  try_finally
    (try_except
       (transmission repetitions message)
       is_KeyboardInterrupt
       (print ([10%N] ++ lit "Transmission interrupted by user")))
    cleanup_gpio.

(** The effects of sending one character of a message. *)
Definition char_events (c : N) : list event := events_of (send_character [c]).

(** The effects of the symbol loop for a Morse string. *)
Definition symbol_events (morse : str) : list event :=
  morse ≫= (λ symbol, events_of (send_symbol symbol)).

(** The Morse string the table gives for a character of the message. *)
Definition code_of (c : N) : str := default [] (MORSE_CODE !! upper [c]).

(** A dot or a dash. *)
Definition is_symbol (s : N) : bool := bool_decide (s = 46 ∨ s = 45)%N.

(** A non-empty string of dots and dashes. *)
Definition is_code (m : str) : bool := bool_decide (m ≠ []) && forallb is_symbol m.

(** What a symbol's pulse sleeps, and the time that is. *)
Definition symbol_sleep (s : N) : float := if decide (s = 46%N) then DOT else DASH.

Definition symbol_duration (s : N) : Q := exact (symbol_sleep s).

(** The marks of one letter: its pulses, a symbol space apart. *)
Fixpoint code_marks (m : str) : list mark :=
  match m with
  | [] => []
  | [s] => [Pulse (symbol_duration s)]
  | s :: m' => Pulse (symbol_duration s) :: Gap (exact SYMBOL_SPACE) :: code_marks m'
  end.

(** The line is low: before the first pulse or after a pulse. *)
Definition resting (st : phase) : bool :=
  match st with On _ => false | _ => true end.

(** The gap that a rising edge closes. *)
Definition edge (st : phase) : list mark :=
  match st with Off t => [Gap (duration t)] | _ => [] end.

(** The silence that has built up when [send_character] returns from a
    letter: the symbol space after its last pulse, then the letter-space
    sleep. *)
Definition after_letter : Q :=
  exact SYMBOL_SPACE + exact (LETTER_SPACE - SYMBOL_SPACE)%float.

(** [ends_low m]: from a world in which the line is low, [m] returns when no
    interrupt is pending, and whenever it returns the line is low again. *)
Definition ends_low (m : M unit) : Prop :=
  ∀ w, line (trace w) = Some LOW →
    (sigint w = None → (m w).1 = Returns ())
    ∧ ((m w).1 = Returns () → line (trace (m w).2) = Some LOW).

(** What [main] prints before and around the transmission. *)
Definition banner (repetitions : Z) (message : str) : list event :=
  [print_ (lit "Sending message '" ++ message ++ lit "' "
           ++ str_of_int repetitions ++ lit " time(s)") [10%N];
   print_ (lit "Morse code pattern:") [10%N]].

Definition range_error : event :=
  print_ (lit "Error: Number of repetitions must be at least 1") [10%N].

Definition interrupt_notice : event :=
  print_ ([10%N] ++ lit "Transmission interrupted by user") [10%N].

(** The pulses of one pass over SOS. *)
Definition SOS_pulses : list Q :=
  exact <$> [DOT; DOT; DOT; DASH; DASH; DASH; DOT; DOT; DOT].

(** The letters and digits, by code point. *)
Definition alnum_points : list N :=
  N.of_nat <$> (seq 48 10 ++ seq 65 26 ++ seq 97 26).

(** The effects of one pass over the message. *)
Definition message_events (message : str) : list event :=
  events_of (send_message message).

(** *** What a message sends *)

(** The character is the space, once uppercased. *)
Definition is_space (c : N) : bool := bool_decide (upper [c] = lit " ").

(** The Morse string [send_character] sends for a character of the message:
    empty for the space and for a character the table does not have. *)
Definition sent_code (c : N) : str :=
  if is_space c then [] else default [] (MORSE_CODE !! upper [c]).

(** What [send_character] prints for a character: its code and a space. *)
Definition token (c : N) : str :=
  match sent_code c with [] => [] | morse => morse ++ lit " " end.

(** The character makes [send_character] do something: it is the space or
    has a code. *)
Definition is_sent (c : N) : bool := is_space c || bool_decide (sent_code c ≠ []).

(** The time a trace sleeps, and its sleeps one by one. *)
Definition sleep_total (tr : list event) : Q :=
  foldr (λ e acc, match e with time_sleep d => exact d + acc | _ => acc end)%Q 0%Q tr.


(** How many dots and dashes a message sends, how many of its characters
    have a code, and how many are spaces. *)
Definition dots (message : str) : nat :=
  length (filter (λ s, s = 46%N) (message ≫= sent_code)).

Definition dashes (message : str) : nat :=
  length (filter (λ s, s = 45%N) (message ≫= sent_code)).

Definition letters (message : str) : nat :=
  length (filter (λ c, sent_code c ≠ []) message).

Definition spaces (message : str) : nat := length (filter is_space message).

(** A count as a rational. *)
Definition times (n : nat) : Q := inject_Z (Z.of_nat n).


(** The durations of the pulses, and of the gaps, of a list of marks. *)
Definition pulse_durations (ms : list mark) : list Q :=
  omap (λ m, match m with Pulse d => Some d | Gap _ => None end) ms.

Definition gap_durations (ms : list mark) : list Q :=
  omap (λ m, match m with Gap d => Some d | Pulse _ => None end) ms.

(** What [main] prints when arguments are missing or the count is not a
    number. *)
Definition usage_events : list event :=
  [print_ (lit "Usage: python3 send.py <repetitions> <message>") [10%N];
   print_ (lit "Example: python3 send.py 4 " ++ [34%N] ++ lit "hello ESP32" ++ [34%N])
     [10%N]].

Definition format_error : event :=
  print_ (lit "Error: First argument must be a number") [10%N].

(** The effects of a whole run of [main] that nothing interrupts. *)
Definition run_events (repetitions : Z) (message : str) : list event :=
  banner repetitions message
    ++ events_of setup_gpio
    ++ concat (replicate (Z.to_nat repetitions) (message_events message))
    ++ [print_ (lit "Transmission complete!") [10%N];
        GPIO_output LED_PIN LOW; GPIO_cleanup].

(** ** Straight-line code *)

Lemma bind_run {A B} (m : M A) (f : A → M B) (w : world) :
  (m ≫= f) w = match m w with
               | (Returns a, w') => f a w'
               | (Raises e, w') => (Raises e, w')
               end.
Proof. reflexivity. Qed.

Lemma play_cons e E w : play (e :: E) w = (perform e ;; play E) w.
Proof. reflexivity. Qed.

(** Without a pending interrupt, every effect of [E] is performed. *)
Lemma play_quiet E t : play E (World t None) = (Returns (), World (t ++ E) None).
Proof.
  revert t; induction E as [|e E IH]; intros t.
  - by rewrite app_nil_r.
  - rewrite play_cons, bind_run. cbn. rewrite IH. by rewrite <- app_assoc.
Qed.

(** An interrupt that arrives within [E] cuts the run after [k] effects. *)
Lemma play_cut E t k :
  (k < length E)%nat →
  play E (World t (Some k)) = (Raises KeyboardInterrupt, World (t ++ take k E) None).
Proof.
  revert t k; induction E as [|e E IH]; intros t k Hk; simpl in Hk; [lia|].
  rewrite play_cons, bind_run. destruct k as [|k]; cbn.
  - by rewrite app_nil_r.
  - rewrite IH by lia. by rewrite <- app_assoc.
Qed.

(** An interrupt that arrives later leaves [E] whole. *)
Lemma play_pass E t k :
  (length E ≤ k)%nat →
  play E (World t (Some k)) = (Returns (), World (t ++ E) (Some (k - length E)%nat)).
Proof.
  revert t k; induction E as [|e E IH]; intros t k Hk; simpl in Hk.
  - cbn. by rewrite app_nil_r, Nat.sub_0_r.
  - rewrite play_cons, bind_run. destruct k as [|k]; [lia|]. cbn.
    rewrite IH by lia. by rewrite <- app_assoc.
Qed.

Lemma play_app E1 E2 w : play (E1 ++ E2) w = (play E1 ;; play E2) w.
Proof.
  revert w; induction E1 as [|e E1 IH]; intros w.
  - reflexivity.
  - simpl app. rewrite play_cons, (bind_run (play (e :: E1))), play_cons, !bind_run.
    destruct (perform e w) as [[[]|x] w']; [|reflexivity].
    rewrite IH. by rewrite bind_run.
Qed.

Lemma performs_events m E : performs m E → events_of m = E.
Proof. intros H. unfold events_of, quiet. by rewrite H, play_quiet. Qed.

Lemma performs_perform e : performs (perform e) [e].
Proof.
  intros w. rewrite play_cons, bind_run.
  by destruct (perform e w) as [[[]|x] w'].
Qed.

Lemma performs_ret : performs (mret ()) [].
Proof. by intros w. Qed.

Lemma performs_bind m1 m2 E1 E2 :
  performs m1 E1 → performs m2 E2 → performs (m1 ;; m2) (E1 ++ E2).
Proof.
  intros H1 H2 w. rewrite play_app, !bind_run, H1.
  destruct (play E1 w) as [[[]|x] w']; [apply H2|reflexivity].
Qed.

Lemma performs_for_each {A} (l : list A) (body : A → M unit) (F : A → list event) :
  (∀ x, performs (body x) (F x)) → performs (for_each l body) (l ≫= F).
Proof.
  intros H. induction l as [|x l IH]; [apply performs_ret|].
  apply (performs_bind _ _ _ _ (H x) IH).
Qed.

(** A straight-line program extends the trace, by a prefix of its effects
    when it is interrupted. *)
Lemma performs_trace m E w :
  performs m E →
  ∃ E', E' `prefix_of` E ∧ trace (m w).2 = trace w ++ E'
        ∧ ((m w).1 = Returns () → E' = E).
Proof.
  intros H. rewrite H. destruct w as [t [k|]].
  - destruct (decide (k < length E)%nat) as [Hk|Hk].
    + rewrite play_cut by done. exists (take k E).
      split_and!; [apply prefix_take|done|done].
    + rewrite play_pass by lia. by exists E.
  - rewrite play_quiet. by exists E.
Qed.

(** ** The table *)

Lemma alnum_cases c : is_alnum c → c ∈ alnum_points.
Proof.
  unfold is_alnum. rewrite bool_decide_spec. intros H.
  unfold alnum_points. apply list_elem_of_fmap. exists (N.to_nat c).
  split; [lia|]. rewrite !elem_of_app, !elem_of_seq. lia.
Qed.

(** Every letter and digit, in either case, has a code of dots and dashes. *)
Lemma alnum_code c : is_alnum c → is_code (code_of c).
Proof.
  intros H%alnum_cases. revert c H. apply Forall_forall, forallb_True.
  by vm_compute.
Qed.

Lemma alnum_lookup c : is_alnum c → MORSE_CODE !! upper [c] = Some (code_of c).
Proof.
  intros H%alnum_cases. revert c H. apply Forall_forall.
  apply (Forall_impl (λ c, bool_decide (MORSE_CODE !! upper [c] = Some (code_of c)))).
  - apply forallb_True. by vm_compute.
  - intros c. by rewrite bool_decide_spec.
Qed.

Lemma alnum_not_space c : is_alnum c → upper [c] ≠ lit " ".
Proof.
  intros H%alnum_cases. revert c H. apply Forall_forall.
  apply (Forall_impl (λ c, bool_decide (upper [c] ≠ lit " "))).
  - apply forallb_True. by vm_compute.
  - intros c. by rewrite bool_decide_spec.
Qed.

(** The entries of the table: the slash under the space, and codes. *)
Lemma table_entries k m :
  MORSE_CODE !! k = Some m → (k = lit " " ∧ m = lit "/") ∨ (k ≠ lit " " ∧ is_code m).
Proof.
  intros H%elem_of_list_to_map_2.
  cut (Forall (λ km : str * str,
         (km.1 = lit " " ∧ km.2 = lit "/") ∨ (km.1 ≠ lit " " ∧ is_code km.2))
       (prod_map lit lit <$> MORSE_TABLE)).
  { intros HF. rewrite Forall_forall in HF. apply (HF (k, m) H). }
  apply (Forall_impl (λ km : str * str,
           bool_decide (km.1 = lit " " ∧ km.2 = lit "/")
           || (bool_decide (km.1 ≠ lit " ") && is_code km.2))).
  - apply forallb_True. by vm_compute.
  - intros km [Hs|Hc]%orb_True.
    + left. by apply bool_decide_spec in Hs.
    + right. apply andb_True in Hc as [H1 H2]. by apply bool_decide_spec in H1.
Qed.

(** ** The functions of the script are straight-line code *)

Lemma performs_self m E : performs m E → performs m (events_of m).
Proof. intros H. by rewrite (performs_events _ _ H). Qed.

Ltac straight :=
  repeat first
    [ apply performs_perform
    | apply performs_ret
    | apply (performs_bind _ _ [_] _) ].

Lemma performs_setup_gpio :
  performs setup_gpio
    [GPIO_setmode BCM; GPIO_setwarnings false; GPIO_setup LED_PIN OUT;
     GPIO_output LED_PIN LOW].
Proof. unfold setup_gpio. straight. Qed.

Lemma performs_cleanup_gpio :
  performs cleanup_gpio [GPIO_output LED_PIN LOW; GPIO_cleanup].
Proof. unfold cleanup_gpio. straight. Qed.

Lemma performs_send_dot :
  performs send_dot
    [GPIO_output LED_PIN HIGH; time_sleep DOT; GPIO_output LED_PIN LOW;
     time_sleep SYMBOL_SPACE].
Proof. unfold send_dot. straight. Qed.

Lemma performs_send_dash :
  performs send_dash
    [GPIO_output LED_PIN HIGH; time_sleep DASH; GPIO_output LED_PIN LOW;
     time_sleep SYMBOL_SPACE].
Proof. unfold send_dash. straight. Qed.

Lemma performs_send_symbol symbol :
  performs (send_symbol symbol) (events_of (send_symbol symbol)).
Proof.
  unfold send_symbol. repeat case_decide.
  - apply (performs_self _ _ performs_send_dot).
  - apply (performs_self _ _ performs_send_dash).
  - apply (performs_self _ _ performs_ret).
Qed.

Lemma send_symbol_events s :
  is_symbol s →
  events_of (send_symbol s)
  = [GPIO_output LED_PIN HIGH; time_sleep (symbol_sleep s);
     GPIO_output LED_PIN LOW; time_sleep SYMBOL_SPACE].
Proof.
  unfold is_symbol. rewrite bool_decide_spec. by intros [->| ->].
Qed.

Lemma performs_symbol_loop morse :
  performs (for_each morse send_symbol) (symbol_events morse).
Proof. apply performs_for_each, performs_send_symbol. Qed.

Lemma performs_send_character char :
  performs (send_character char) (events_of (send_character char)).
Proof.
  unfold send_character. cbv zeta. case_decide.
  - eapply (performs_self _ [_]). straight.
  - destruct (MORSE_CODE !! upper char) as [morse|].
    + eapply (performs_self _ (print_ morse (lit " ") :: symbol_events morse ++ [_])).
      apply (performs_bind _ _ [_]); [straight|].
      apply performs_bind; [apply performs_symbol_loop|straight].
    + apply (performs_self _ _ performs_ret).
Qed.

Lemma char_events_alnum c :
  is_alnum c →
  char_events c
  = print_ (code_of c) (lit " ")
      :: symbol_events (code_of c) ++ [time_sleep (LETTER_SPACE - SYMBOL_SPACE)%float].
Proof.
  intros H. apply performs_events. unfold send_character. cbv zeta.
  rewrite decide_False by by apply alnum_not_space.
  rewrite (alnum_lookup c H).
  apply (performs_bind _ _ [_]); [straight|].
  apply performs_bind; [apply performs_symbol_loop|straight].
Qed.

Lemma char_events_space : char_events 32 = [time_sleep (WORD_SPACE - LETTER_SPACE)%float].
Proof. reflexivity. Qed.

Lemma performs_send_message message :
  performs (send_message message) ((message ≫= char_events) ++ [print_ [] [10%N]]).
Proof.
  unfold send_message. apply performs_bind; [|apply performs_perform].
  apply (performs_for_each message (λ char, send_character [char]) char_events).
  intros c. apply performs_send_character.
Qed.

Lemma message_events_eq message :
  message_events message = (message ≫= char_events) ++ [print_ [] [10%N]].
Proof. apply performs_events, performs_send_message. Qed.

Lemma message_events_app m1 m2 :
  message_events (m1 ++ m2) = (m1 ≫= char_events) ++ message_events m2.
Proof. rewrite !message_events_eq, bind_app. by rewrite <- app_assoc. Qed.

Lemma performs_transmission repetitions message :
  performs (transmission repetitions message)
    (events_of setup_gpio
       ++ (range repetitions ≫= λ _, message_events message)
       ++ [print_ (lit "Transmission complete!") [10%N]]).
Proof.
  unfold transmission. apply performs_bind; [apply performs_setup_gpio|].
  apply performs_bind; [|apply performs_perform].
  apply (performs_for_each _ _ (λ _, message_events message)).
  intros _. apply (performs_self _ _ (performs_send_message message)).
Qed.

(** [main] makes [repetitions] passes over the message, one after the other. *)
Lemma transmission_events repetitions message :
  events_of (transmission repetitions message)
  = events_of setup_gpio
      ++ concat (replicate (Z.to_nat repetitions) (message_events message))
      ++ [print_ (lit "Transmission complete!") [10%N]].
Proof.
  rewrite (performs_events _ _ (performs_transmission repetitions message)).
  do 2 f_equal. unfold range. rewrite <- (length_seqZ 0 repetitions).
  induction (seqZ 0 repetitions) as [|i l IH]; [done|].
  rewrite bind_cons, IH. done.
Qed.

(** ** The waveform of a message *)

Lemma waveform_from_app st A B :
  waveform_from st (A ++ B)
  = waveform_from st A ++ waveform_from (phase_after st A) B.
Proof.
  revert st; induction A as [|e A IH]; intros st; [done|].
  simpl. by rewrite IH, app_assoc.
Qed.

Lemma phase_after_app st A B :
  phase_after st (A ++ B) = phase_after (phase_after st A) B.
Proof. apply foldl_app. Qed.

Lemma symbol_events_cons s m :
  symbol_events (s :: m) = events_of (send_symbol s) ++ symbol_events m.
Proof. reflexivity. Qed.

(** One symbol: the rising edge closes the gap before it, and the pulse
    lasts the symbol's duration. *)
Lemma symbol_wave st s :
  resting st → is_symbol s →
  waveform_from st (events_of (send_symbol s)) = edge st ++ [Pulse (symbol_duration s)]
  ∧ phase_after st (events_of (send_symbol s)) = Off (Some (exact SYMBOL_SPACE)).
Proof.
  intros Hst Hs. rewrite (send_symbol_events s Hs). by destruct st.
Qed.

Lemma code_wave st m :
  resting st → forallb is_symbol m →
  waveform_from st (symbol_events m)
  = match m with [] => [] | _ => edge st ++ code_marks m end
  ∧ phase_after st (symbol_events m)
  = match m with [] => st | _ => Off (Some (exact SYMBOL_SPACE)) end.
Proof.
  revert st; induction m as [|s m IH]; intros st Hst Hm; [done|].
  apply andb_True in Hm as [Hs Hm].
  rewrite symbol_events_cons, waveform_from_app, phase_after_app.
  destruct (symbol_wave st s Hst Hs) as [-> ->].
  destruct (IH (Off (Some (exact SYMBOL_SPACE))) I Hm) as [-> ->].
  destruct m; [by rewrite app_nil_r|]. by rewrite <- app_assoc.
Qed.

Lemma code_marks_head m :
  is_code m → ∃ s, head m = Some s ∧ head (code_marks m) = Some (Pulse (symbol_duration s)).
Proof. destruct m as [|s [|s' m]]; [done|by exists s..]. Qed.

Lemma code_marks_last m :
  is_code m → ∃ s, last m = Some s ∧ last (code_marks m) = Some (Pulse (symbol_duration s)).
Proof.
  intros [Hne _]%andb_True. apply bool_decide_spec in Hne.
  induction m as [|s m IH]; [done|]. destruct m as [|s' m]; [by exists s|].
  destruct IH as (s0 & H1 & H2); [done|]. exists s0. split; [done|].
  change (code_marks (s :: s' :: m))
    with (Pulse (symbol_duration s) :: Gap (exact SYMBOL_SPACE) :: code_marks (s' :: m)).
  rewrite !last_cons, H2. done.
Qed.

(** One letter or digit: its marks, and the phase it leaves. *)
Lemma letter_wave st c :
  resting st → is_alnum c →
  waveform_from st (char_events c) = edge st ++ code_marks (code_of c)
  ∧ phase_after st (char_events c) = Off (Some after_letter).
Proof.
  intros Hst Hc. pose proof (alnum_code c Hc) as Hm.
  apply andb_True in Hm as [Hne Hm]. apply bool_decide_spec in Hne.
  rewrite (char_events_alnum c Hc).
  change (print_ ?t ?e :: ?E) with ([print_ t e] ++ E).
  rewrite !waveform_from_app, !phase_after_app.
  change (phase_after st [print_ _ _]) with st.
  change (waveform_from st [print_ _ _]) with (@nil mark).
  destruct (code_wave st (code_of c) Hst Hm) as [-> ->].
  destruct (code_of c); [done|]. simpl. by rewrite app_nil_r.
Qed.

(** What [send_character] does, by the branch it takes. *)
Lemma send_character_cases char :
  (upper char = lit " "
   ∧ events_of (send_character char) = [time_sleep (WORD_SPACE - LETTER_SPACE)%float])
  ∨ (upper char ≠ lit " " ∧ MORSE_CODE !! upper char = None
     ∧ events_of (send_character char) = [])
  ∨ (∃ morse, upper char ≠ lit " " ∧ MORSE_CODE !! upper char = Some morse
     ∧ is_code morse
     ∧ events_of (send_character char)
       = print_ morse (lit " ")
           :: symbol_events morse ++ [time_sleep (LETTER_SPACE - SYMBOL_SPACE)%float]).
Proof.
  unfold events_of at 1 2 3, send_character. cbv zeta.
  destruct (decide (upper char = lit " ")) as [Hsp|Hsp]; [by left|right].
  destruct (MORSE_CODE !! upper char) as [morse|] eqn:Hm; [right|by left].
  exists morse. destruct (table_entries _ _ Hm) as [[? _]|[_ Hc]]; [done|].
  split_and!; [done..|].
  change (events_of (perform (print_ morse (lit " ")) ;;
                     for_each morse send_symbol ;;
                     perform (time_sleep (LETTER_SPACE - SYMBOL_SPACE)%float))
          = print_ morse (lit " ")
              :: symbol_events morse ++ [time_sleep (LETTER_SPACE - SYMBOL_SPACE)%float]).
  apply performs_events.
  apply (performs_bind _ _ [_]); [straight|].
  apply performs_bind; [apply performs_symbol_loop|straight].
Qed.

Lemma char_resting st c : resting st → resting (phase_after st (char_events c)).
Proof.
  intros Hst. unfold char_events.
  destruct (send_character_cases [c]) as [[_ ->]|[(_ & _ & ->)|(m & _ & _ & Hm & ->)]].
  - by destruct st.
  - done.
  - apply andb_True in Hm as [Hne Hm]. apply bool_decide_spec in Hne.
    change (print_ ?t ?e :: ?E) with ([print_ t e] ++ E).
    rewrite !phase_after_app.
    change (phase_after st [print_ _ _]) with st.
    destruct (code_wave st m Hst Hm) as [_ ->]. by destruct m.
Qed.

Lemma chars_resting st message :
  resting st → resting (phase_after st (message ≫= char_events)).
Proof.
  revert st; induction message as [|c message IH]; intros st Hst; [done|].
  rewrite bind_cons, phase_after_app. by apply IH, char_resting.
Qed.

(** The waveform of a message that ends in a letter ends with the last
    pulse of that letter, and the line has then been low for
    [after_letter]. *)
Lemma upto_letter pre c :
  is_alnum c →
  waveform (message_events (pre ++ [c]))
  = waveform ((pre ++ [c]) ≫= char_events)
  ∧ phase_after Idle ((pre ++ [c]) ≫= char_events) = Off (Some after_letter)
  ∧ ∃ s, last (code_of c) = Some s
         ∧ last (waveform (message_events (pre ++ [c])))
           = Some (Pulse (symbol_duration s)).
Proof.
  intros Hc. rewrite message_events_eq. unfold waveform.
  rewrite waveform_from_app, app_nil_r. split; [done|].
  rewrite bind_app, bind_cons. change (mbind char_events []) with (@nil event). rewrite app_nil_r.
  rewrite waveform_from_app, phase_after_app.
  pose proof (chars_resting Idle pre I) as Hst.
  destruct (letter_wave _ c Hst Hc) as [-> ->]. split; [done|].
  destruct (code_marks_last _ (alnum_code c Hc)) as (s & Hs & Hl).
  exists s. split; [done|]. by rewrite !last_app, Hl.
Qed.

(** The waveform of a message in which a letter follows [pre ++ [c1]],
    directly or after a run [mid] of characters that only sleep: the gap is
    whatever silence [mid] leaves, then come the marks of the letter. *)
Lemma next_letter pre c1 mid c2 post t :
  is_alnum c1 → is_alnum c2 →
  waveform_from (Off (Some after_letter)) (mid ≫= char_events) = [] →
  phase_after (Off (Some after_letter)) (mid ≫= char_events) = Off (Some t) →
  waveform (message_events (pre ++ c1 :: mid ++ c2 :: post))
  = waveform (message_events (pre ++ [c1]))
      ++ Gap t :: code_marks (code_of c2)
      ++ waveform_from (Off (Some after_letter)) (message_events post).
Proof.
  intros H1 H2 Hmid Hph.
  destruct (upto_letter pre c1 H1) as (-> & Hafter & _).
  replace (pre ++ c1 :: mid ++ c2 :: post)
    with ((pre ++ [c1]) ++ mid ++ [c2] ++ post) by by rewrite <- app_assoc.
  rewrite !message_events_app, bind_cons.
  change (mbind char_events []) with (@nil event). rewrite app_nil_r.
  unfold waveform. rewrite !waveform_from_app, Hafter, Hmid, Hph.
  by destruct (letter_wave (Off (Some t)) c2 I H2) as [-> ->].
Qed.

(** ** Timing *)

(** Between two consecutive letters or digits of a message the line is low
    for the two sleeps that follow the last pulse: the symbol space of
    [send_dot] or [send_dash], and the sleep that ends [send_character]. *)
Lemma letter_gap_sleeps pre c1 c2 post :
  is_alnum c1 → is_alnum c2 →
  waveform (message_events (pre ++ c1 :: c2 :: post))
  = waveform (message_events (pre ++ [c1]))
      ++ Gap (exact SYMBOL_SPACE + exact (LETTER_SPACE - SYMBOL_SPACE)%float)
      :: code_marks (code_of c2)
      ++ waveform_from (Off (Some after_letter)) (message_events post)
  ∧ (∃ s, last (code_of c1) = Some s
          ∧ last (waveform (message_events (pre ++ [c1])))
            = Some (Pulse (symbol_duration s)))
  ∧ (∃ s, head (code_of c2) = Some s
          ∧ head (code_marks (code_of c2)) = Some (Pulse (symbol_duration s))).
Proof.
  intros H1 H2. split_and!.
  - by apply (next_letter pre c1 [] c2 post).
  - by destruct (upto_letter pre c1 H1) as (_ & _ & ?).
  - apply code_marks_head, alnum_code, H2.
Qed.

(** Across one space between two letters or digits the sleep of the space
    comes on top; the space itself only sleeps. *)
Lemma word_gap_sleeps pre c1 c2 post :
  is_alnum c1 → is_alnum c2 →
  waveform (message_events (pre ++ c1 :: 32%N :: c2 :: post))
  = waveform (message_events (pre ++ [c1]))
      ++ Gap (exact SYMBOL_SPACE + exact (LETTER_SPACE - SYMBOL_SPACE)%float
              + exact (WORD_SPACE - LETTER_SPACE)%float)
      :: code_marks (code_of c2)
      ++ waveform_from (Off (Some after_letter)) (message_events post)
  ∧ (∃ s, last (code_of c1) = Some s
          ∧ last (waveform (message_events (pre ++ [c1])))
            = Some (Pulse (symbol_duration s)))
  ∧ (∃ s, head (code_of c2) = Some s
          ∧ head (code_marks (code_of c2)) = Some (Pulse (symbol_duration s)))
  ∧ char_events 32 = [time_sleep (WORD_SPACE - LETTER_SPACE)%float].
Proof.
  intros H1 H2. split_and!.
  - by apply (next_letter pre c1 [32%N] c2 post).
  - by destruct (upto_letter pre c1 H1) as (_ & _ & ?).
  - apply code_marks_head, alnum_code, H2.
  - reflexivity.
Qed.

(** ** The line at rest *)

Lemma line_app t E : line (t ++ E) = foldl line_step (line t) E.
Proof. apply foldl_app. Qed.

Lemma ends_low_performs m E :
  performs m E → foldl line_step (Some LOW) E = Some LOW → ends_low m.
Proof.
  intros Hm HE w Hw. split.
  - intros Hq. rewrite Hm. destruct w as [t k]. simpl in Hq. subst k.
    by rewrite play_quiet.
  - intros Hr. destruct (performs_trace m E w Hm) as (E' & _ & -> & HE').
    rewrite (HE' Hr), line_app, Hw. exact HE.
Qed.

Lemma symbol_events_low m :
  forallb is_symbol m → foldl line_step (Some LOW) (symbol_events m) = Some LOW.
Proof.
  induction m as [|s m IH]; [done|]. intros [Hs Hm]%andb_True.
  rewrite symbol_events_cons, foldl_app, (send_symbol_events s Hs). by apply IH.
Qed.

Lemma send_character_low char :
  foldl line_step (Some LOW) (events_of (send_character char)) = Some LOW.
Proof.
  destruct (send_character_cases char)
    as [[_ ->]|[(_ & _ & ->)|(m & _ & _ & Hm & ->)]]; [done..|].
  apply andb_True in Hm as [_ Hm].
  change (print_ ?t ?e :: ?E) with ([print_ t e] ++ E).
  rewrite !foldl_app. simpl. by rewrite symbol_events_low.
Qed.

Lemma message_events_low message :
  foldl line_step (Some LOW) (message_events message) = Some LOW.
Proof.
  rewrite message_events_eq, foldl_app. simpl.
  induction message as [|c message IH]; [done|].
  rewrite bind_cons, foldl_app. unfold char_events at 1.
  by rewrite send_character_low.
Qed.

Lemma pulsed_app A B : pulsed A → pulsed B → pulsed (A ++ B).
Proof.
  intros HA HB.
  induction HA; simpl; [done|by apply pulsed_pulse|by apply pulsed_other].
Qed.

Lemma symbol_events_pulsed m : forallb is_symbol m → pulsed (symbol_events m).
Proof.
  induction m as [|s m IH]; [constructor|]. intros [Hs Hm]%andb_True.
  rewrite symbol_events_cons, (send_symbol_events s Hs).
  apply (pulsed_pulse _ (_ :: _)). apply pulsed_other; [done|]. by apply IH.
Qed.

Lemma send_character_pulsed char : pulsed (events_of (send_character char)).
Proof.
  destruct (send_character_cases char)
    as [[_ ->]|[(_ & _ & ->)|(m & _ & _ & Hm & ->)]].
  - by repeat constructor.
  - constructor.
  - apply andb_True in Hm as [_ Hm]. apply pulsed_other; [done|].
    apply pulsed_app; [by apply symbol_events_pulsed|by repeat constructor].
Qed.

Lemma message_events_pulsed message : pulsed (message_events message).
Proof.
  rewrite message_events_eq. apply pulsed_app; [|by repeat constructor].
  induction message as [|c message IH]; [constructor|].
  rewrite bind_cons. apply pulsed_app; [apply send_character_pulsed|apply IH].
Qed.

Lemma line_step_other e : is_assert e = false → line_step (Some LOW) e = Some LOW.
Proof. destruct e as [| | |pin []| | |]; try done. intros _. simpl. by case_decide. Qed.

(** In a pulsed trace that starts with the line low, the line is high only
    while a pulse is in progress. *)
Lemma pulsed_high tr A B :
  pulsed tr → tr = A ++ B → foldl line_step (Some LOW) A = Some HIGH → in_pulse A B.
Proof.
  intros Htr. revert A. induction Htr as [|d tr Htr IH|e tr He Htr IH]; intros A HA Hh.
  - by apply eq_sym, app_eq_nil in HA as [-> _].
  - destruct A as [|e1 [|e2 [|e3 A]]]; simplify_eq/=.
    + exists [], d, tr. by left.
    + exists [], d, tr. by right.
    + destruct (IH A eq_refl Hh) as (A' & d' & B' & [[-> ->]|[-> ->]]).
      * exists (GPIO_output LED_PIN HIGH :: time_sleep d
                  :: GPIO_output LED_PIN LOW :: A'), d', B'. by left.
      * exists (GPIO_output LED_PIN HIGH :: time_sleep d
                  :: GPIO_output LED_PIN LOW :: A'), d', B'. by right.
  - destruct A as [|e1 A]; simplify_eq/=.
    rewrite (line_step_other _ He) in Hh.
    destruct (IH A eq_refl Hh) as (A' & d' & B' & [[-> ->]|[-> ->]]).
    + exists (e1 :: A'), d', B'. by left.
    + exists (e1 :: A'), d', B'. by right.
Qed.

(** C10. The line is low whenever no pulse is in progress: [setup_gpio]
    leaves it low; [send_dot] and [send_dash] drive the pin high, then low;
    from a low line [send_dot], [send_dash], [send_character] and
    [send_message] return (when no interrupt cuts them short) with the line
    low again; and at every point of a pass over a message at which the line
    is high, a pulse is in progress. *)
Theorem line_low_at_rest :
  line (events_of setup_gpio) = Some LOW
  ∧ filter is_pin_event (events_of send_dot)
    = [GPIO_output LED_PIN HIGH; GPIO_output LED_PIN LOW]
  ∧ filter is_pin_event (events_of send_dash)
    = [GPIO_output LED_PIN HIGH; GPIO_output LED_PIN LOW]
  ∧ ends_low send_dot ∧ ends_low send_dash
  ∧ (∀ char, ends_low (send_character char))
  ∧ (∀ message, ends_low (send_message message))
  ∧ (∀ message A B,
       message_events message = A ++ B →
       foldl line_step (Some LOW) A = Some HIGH → in_pulse A B).
Proof.
  split_and!.
  - reflexivity.
  - reflexivity.
  - reflexivity.
  - by apply (ends_low_performs _ _ performs_send_dot).
  - by apply (ends_low_performs _ _ performs_send_dash).
  - intros char. apply (ends_low_performs _ _ (performs_send_character char)).
    apply send_character_low.
  - intros message. apply (ends_low_performs _ _ (performs_send_message message)).
    rewrite <- message_events_eq. apply message_events_low.
  - intros message A B. apply pulsed_high, message_events_pulsed.
Qed.

(** ** Characters *)

(** The keys of the table are single code points: the capital letters, the
    digits and the space. *)
Lemma table_keys k :
  is_Some (MORSE_CODE !! k) →
  ∃ x, k = [x] ∧ (65 ≤ x ≤ 90 ∨ 48 ≤ x ≤ 57 ∨ x = 32)%N.
Proof.
  intros [m H%elem_of_list_to_map_2].
  cut (Forall (λ km : list N * list N,
         ∃ x, km.1 = [x] ∧ (65 ≤ x ≤ 90 ∨ 48 ≤ x ≤ 57 ∨ x = 32)%N)
       (prod_map lit lit <$> MORSE_TABLE)).
  { intros HF. rewrite Forall_forall in HF. apply (HF (k, m) H). }
  apply (Forall_impl (λ km : list N * list N,
           Is_true match km.1 with
                   | [x] => bool_decide (65 ≤ x ≤ 90 ∨ 48 ≤ x ≤ 57 ∨ x = 32)%N
                   | _ => false
                   end)).
  - apply forallb_True. by vm_compute.
  - intros [[|x [|??]] ?]; simpl; [done| |done].
    intros Hx%bool_decide_spec. by exists x.
Qed.

Lemma upper_single c : upper [c] = upper_cp c.
Proof. unfold upper. by rewrite bind_cons, app_nil_r. Qed.

(** C4, as amended. A character outside [A]-[Z], [a]-[z], [0]-[9] and the
    space, other than U+0131 and U+017F (which [str.upper] turns into [I] and
    [S]), makes [send_character] do nothing at all, in every world: no pulse,
    no sleep, nothing printed, no exception. *)
Theorem unsupported_skipped (c : N) (w : world) :
  is_supported c = false → c ≠ 305%N → c ≠ 383%N →
  send_character [c] w = (Returns (), w)
  ∧ char_events c = [].
Proof.
  intros Hc H1 H2.
  assert (upper [c] ≠ lit " " ∧ MORSE_CODE !! upper [c] = None) as [Hsp Hno].
  { apply orb_false_iff in Hc as [Ha Hs].
    apply bool_decide_eq_false in Ha, Hs.
    split.
    - rewrite upper_single. unfold upper_cp.
      repeat case_bool_decide; intros [=]; lia.
    - apply eq_None_not_Some. intros (x & Hx & Hr)%table_keys.
      rewrite upper_single in Hx. unfold upper_cp in Hx.
      repeat case_bool_decide; simplify_eq; lia. }
  unfold char_events, events_of, send_character. cbv zeta.
  rewrite !decide_False by done. by rewrite Hno.
Qed.

Lemma supported_cases c : is_supported c → c ∈ 32%N :: alnum_points.
Proof.
  intros [H|H]%orb_True.
  - right. by apply alnum_cases.
  - apply bool_decide_spec in H as ->. left.
Qed.

(** C5. Case does not matter: on a supported character and on its lowercase
    form [send_character] behaves identically, in every world, because the
    character is uppercased before any test. *)
Theorem case_insensitive (c : N) (w : world) :
  is_supported c →
  upper (lower [c]) = upper [c]
  ∧ send_character (lower [c]) w = send_character [c] w.
Proof.
  intros H%supported_cases.
  assert (upper (lower [c]) = upper [c]) as Hu.
  { revert c H. apply Forall_forall.
    apply (Forall_impl (λ c, bool_decide (upper (lower [c]) = upper [c]))).
    - apply forallb_True. by vm_compute.
    - intros c. by rewrite bool_decide_spec. }
  split; [done|]. unfold send_character. cbv zeta. by rewrite Hu.
Qed.

(** ** What is printed *)

Lemma stdout_app A B : stdout (A ++ B) = stdout A ++ stdout B.
Proof. apply bind_app. Qed.

Lemma symbol_events_silent m : forallb is_symbol m → stdout (symbol_events m) = [].
Proof.
  induction m as [|s m IH]; [done|]. intros [Hs Hm]%andb_True.
  rewrite symbol_events_cons, stdout_app, (send_symbol_events s Hs). by apply IH.
Qed.

Lemma code_pattern m : is_code m → forallb is_pattern_char m.
Proof.
  intros [_ H]%andb_True. apply forallb_True. apply forallb_True in H.
  eapply Forall_impl; [exact H|]. intros s Hs%bool_decide_spec.
  apply bool_decide_spec. tauto.
Qed.

Lemma send_character_pattern char :
  forallb is_pattern_char (stdout (events_of (send_character char))).
Proof.
  destruct (send_character_cases char)
    as [[_ ->]|[(_ & _ & ->)|(m & _ & _ & Hm & ->)]]; [done..|].
  change (print_ ?t ?e :: ?E) with ([print_ t e] ++ E).
  rewrite !stdout_app, symbol_events_silent by by apply andb_True in Hm as [_ ?].
  simpl. rewrite !app_nil_r. apply forallb_True, Forall_app. split.
  - apply forallb_True, code_pattern, Hm.
  - by repeat constructor.
Qed.

Lemma chars_pattern message :
  forallb is_pattern_char (stdout (message ≫= char_events)).
Proof.
  induction message as [|c message IH]; [done|].
  rewrite bind_cons, stdout_app. apply forallb_True, Forall_app.
  split; apply forallb_True; [apply send_character_pattern|apply IH].
Qed.

(** C9. The table's entry for the space, the slash, is dead: the lookup in
    [send_character] is reached only when the uppercased character is not the
    space, so it yields a string of dots and dashes, never the slash; what a
    pass over any message prints is made of dots, dashes and separating
    spaces (then the newline that ends the line), and it has no slash even
    when an interrupt cuts the pass short. *)
Theorem slash_unreachable :
  MORSE_CODE !! lit " " = Some (lit "/")
  ∧ (∀ char morse,
       upper char ≠ lit " " → MORSE_CODE !! upper char = Some morse →
       morse ≠ lit "/" ∧ is_code morse)
  ∧ (∀ char, forallb is_pattern_char (stdout (events_of (send_character char))))
  ∧ (∀ message, ∃ pattern,
       stdout (message_events message) = pattern ++ [10%N]
       ∧ forallb is_pattern_char pattern)
  ∧ (∀ message w, ∃ E,
       trace (send_message message w).2 = trace w ++ E ∧ 47%N ∉ stdout E).
Proof.
  assert (∀ message, ∃ pattern,
            stdout (message_events message) = pattern ++ [10%N]
            ∧ forallb is_pattern_char pattern) as Hpat.
  { intros message. exists (stdout (message ≫= char_events)).
    split; [|apply chars_pattern]. by rewrite message_events_eq, stdout_app. }
  split_and!.
  - by vm_compute.
  - intros char morse Hsp Hm.
    destruct (table_entries _ _ Hm) as [[? _]|[_ Hc]]; [done|].
    split; [|done]. by intros ->.
  - apply send_character_pattern.
  - exact Hpat.
  - intros message w.
    destruct (performs_trace _ _ w (performs_send_message message))
      as (E & [R HR] & HE & _).
    exists E. split; [done|]. rewrite <- message_events_eq in HR.
    destruct (Hpat message) as (pattern & Hout & Hp).
    rewrite HR, stdout_app in Hout. intros Hin.
    assert (47%N ∈ pattern ++ [10%N]) as [Hin'|Hin']%elem_of_app.
    { rewrite <- Hout. apply elem_of_app. by left. }
    + apply forallb_True in Hp. rewrite Forall_forall in Hp.
      by specialize (Hp _ Hin').
    + by apply list_elem_of_singleton in Hin'.
Qed.

(** ** The command line *)

(** With a program name, a count that [int] accepts and a message, [main]
    validates the count and transmits. *)
Lemma main_run prog r message rest repetitions w :
  int r = Some repetitions →
  main (prog :: r :: message :: rest) w
  = ((if bool_decide (repetitions < 1) then
        print (lit "Error: Number of repetitions must be at least 1") ;;
        sys_exit 1
      else mret ()) ;;
     print (lit "Sending message '" ++ message ++ lit "' "
            ++ str_of_int repetitions ++ lit " time(s)") ;;
     print (lit "Morse code pattern:") ;;
     try_finally
       (try_except (transmission repetitions message) is_KeyboardInterrupt
          (print ([10%N] ++ lit "Transmission interrupted by user")))
       cleanup_gpio) w.
Proof.
  intros Hr. unfold main.
  rewrite bool_decide_eq_false_2 by (simpl; lia).
  change ((prog :: r :: message :: rest) !!! 1%nat) with r.
  by rewrite Hr.
Qed.

Lemma print_quiet text t :
  print text (World t None) = (Returns (), World (t ++ [print_ text [10%N]]) None).
Proof. reflexivity. Qed.

Lemma print_pass text t k :
  print text (World t (Some (S k)))
  = (Returns (), World (t ++ [print_ text [10%N]]) (Some k)).
Proof. reflexivity. Qed.

(** The [try] statement of [main], when no interrupt is pending. *)
Lemma guarded_quiet repetitions message t :
  try_finally
    (try_except (transmission repetitions message) is_KeyboardInterrupt
       (print ([10%N] ++ lit "Transmission interrupted by user")))
    cleanup_gpio (World t None)
  = (Returns (),
     World (t ++ events_of (transmission repetitions message)
              ++ [GPIO_output LED_PIN LOW; GPIO_cleanup]) None).
Proof.
  unfold try_finally, try_except.
  rewrite (performs_self _ _ (performs_transmission repetitions message)).
  rewrite play_quiet, performs_cleanup_gpio, play_quiet.
  by rewrite <- app_assoc.
Qed.

(** The [try] statement of [main], when the interrupt arrives within the
    [try] block. *)
Lemma guarded_interrupted repetitions message t k :
  (k < length (events_of (transmission repetitions message)))%nat →
  try_finally
    (try_except (transmission repetitions message) is_KeyboardInterrupt
       (print ([10%N] ++ lit "Transmission interrupted by user")))
    cleanup_gpio (World t (Some k))
  = (Returns (),
     World (t ++ take k (events_of (transmission repetitions message))
              ++ [interrupt_notice; GPIO_output LED_PIN LOW; GPIO_cleanup]) None).
Proof.
  intros Hk. unfold try_finally, try_except.
  rewrite (performs_self _ _ (performs_transmission repetitions message)).
  rewrite play_cut by done. cbn [is_KeyboardInterrupt].
  unfold print. rewrite performs_perform, play_quiet.
  rewrite performs_cleanup_gpio, play_quiet.
  by rewrite <- !app_assoc.
Qed.

(** An uninterrupted run with a valid count. *)
Lemma main_quiet prog r message rest repetitions t :
  int r = Some repetitions → 1 ≤ repetitions →
  main (prog :: r :: message :: rest) (World t None)
  = (Returns (),
     World (t ++ banner repetitions message
              ++ events_of (transmission repetitions message)
              ++ [GPIO_output LED_PIN LOW; GPIO_cleanup]) None).
Proof.
  intros Hr Hn. rewrite (main_run _ _ _ _ _ _ Hr).
  rewrite bool_decide_eq_false_2 by lia.
  rewrite bind_run. cbn [mret M_ret].
  rewrite bind_run, print_quiet, bind_run, print_quiet, guarded_quiet.
  by rewrite <- !app_assoc.
Qed.

(** C6. A count below one is refused: [main] prints the range error and
    exits with status 1, and in no world, interrupted or not, does it perform
    a pin operation. *)
Theorem repetitions_validated prog r message rest repetitions :
  int r = Some repetitions → repetitions < 1 →
  main (prog :: r :: message :: rest) quiet
  = (Raises (SystemExit 1), World [range_error] None)
  ∧ exit_code (main (prog :: r :: message :: rest) quiet).1 = 1
  ∧ ∀ w, ∃ E,
      trace (main (prog :: r :: message :: rest) w).2 = trace w ++ E
      ∧ forallb (λ e, negb (is_pin_event e)) E
      ∧ (main (prog :: r :: message :: rest) w).1 ≠ Returns ().
Proof.
  intros Hr Hn.
  assert (∀ w, main (prog :: r :: message :: rest) w
               = (perform range_error ;; sys_exit 1) w) as Hmain.
  { intros w. rewrite (main_run _ _ _ _ _ _ Hr).
    rewrite bool_decide_eq_true_2 by done.
    rewrite !bind_run.
    change (print (lit "Error: Number of repetitions must be at least 1"))
      with (perform range_error).
    by destruct (perform range_error w) as [[[]|x] w']. }
  split_and!.
  - by rewrite Hmain.
  - by rewrite Hmain.
  - intros w. rewrite Hmain. destruct w as [t [[|k]|]].
    + exists []. by rewrite app_nil_r.
    + by exists [range_error].
    + by exists [range_error].
Qed.

(** C7. An interrupt that arrives during the transmission is caught.  [main]
    prints two lines before the [try] block, so the interrupt arrives after
    [2 + k] effects, where [k] counts within the block and [setup_gpio] (four
    calls) is over.  [main] has then performed the effects of the run up to
    that point; it prints the notice, drives the line low once and cleans up,
    and returns: the process exits with status 0 and the line is low. *)
Theorem interrupt_caught prog r message rest repetitions k :
  int r = Some repetitions → 1 ≤ repetitions →
  (4 ≤ k < length (events_of (transmission repetitions message)))%nat →
  ∃ w',
    main (prog :: r :: message :: rest) (World [] (Some (2 + k)%nat))
    = (Returns (), w')
    ∧ exit_code (main (prog :: r :: message :: rest) (World [] (Some (2 + k)%nat))).1
      = 0
    ∧ trace w'
      = take (2 + k) (events_of (main (prog :: r :: message :: rest)))
          ++ [interrupt_notice; GPIO_output LED_PIN LOW; GPIO_cleanup]
    ∧ line (trace w') = Some LOW
    ∧ deasserts (drop (2 + k) (trace w')) = 1%nat
    ∧ sigint w' = None.
Proof.
  intros Hr Hn [_ Hk]. eexists.
  match goal with |- ?eq ∧ _ => assert eq as Hrun end; [|split; [exact Hrun|]].
  - rewrite (main_run _ _ _ _ _ _ Hr).
    rewrite bool_decide_eq_false_2 by lia.
    rewrite bind_run. cbn [mret M_ret Nat.add].
    rewrite bind_run, print_pass, bind_run, print_pass.
    rewrite guarded_interrupted by done. reflexivity.
  - split; [by rewrite Hrun|]. clear Hrun.
    unfold events_of at 2, quiet. rewrite (main_quiet _ _ _ _ _ _ Hr Hn).
    cbn [trace snd app]. set (E := events_of (transmission repetitions message)) in *.
    unfold banner. cbn [app take Nat.add]. rewrite take_app_le by lia.
    set (P := take k E).
    split_and!; [done| | |done].
    + rewrite !app_comm_cons, line_app. reflexivity.
    + cbn [drop Nat.add]. rewrite drop_app_length'; [done|].
      subst P. rewrite length_take. lia.
Qed.

(** C3, as amended. With count 3 and message SOS, [main] makes exactly three
    passes over the message; each pass sends dot dot dot, dash dash dash,
    dot dot dot, which is 9 pulses, and the run has 27 pulses in all. *)
Theorem sos_three_times prog r :
  int r = Some 3 →
  (main [prog; r; lit "SOS"] quiet).1 = Returns ()
  ∧ events_of (transmission 3 (lit "SOS"))
    = events_of setup_gpio
        ++ (message_events (lit "SOS") ++ message_events (lit "SOS")
            ++ message_events (lit "SOS"))
        ++ [print_ (lit "Transmission complete!") [10%N]]
  ∧ pulses (message_events (lit "SOS")) = SOS_pulses
  ∧ length (pulses (message_events (lit "SOS"))) = 9%nat
  ∧ pulses (trace (main [prog; r; lit "SOS"] quiet).2)
    = SOS_pulses ++ SOS_pulses ++ SOS_pulses
  ∧ length (pulses (trace (main [prog; r; lit "SOS"] quiet).2)) = 27%nat.
Proof.
  intros Hr. unfold quiet. rewrite (main_quiet _ _ _ _ _ _ Hr) by done.
  cbn [fst snd trace].
  rewrite (performs_events _ _ (performs_transmission 3 (lit "SOS"))).
  split_and!; reflexivity.
Qed.

(** ** What a message sends, character by character *)

(** The three branches of [send_character] on a character of a message, in
    terms of the code it sends. *)
Lemma char_cases c :
  (is_space c ∧ sent_code c = []
   ∧ char_events c = [time_sleep (WORD_SPACE - LETTER_SPACE)%float])
  ∨ (¬ is_space c ∧ sent_code c = [] ∧ char_events c = [])
  ∨ (¬ is_space c ∧ is_code (sent_code c)
     ∧ char_events c
       = print_ (sent_code c) (lit " ")
           :: symbol_events (sent_code c)
           ++ [time_sleep (LETTER_SPACE - SYMBOL_SPACE)%float]).
Proof.
  unfold char_events, sent_code, is_space.
  destruct (send_character_cases [c])
    as [[Hsp ->]|[(Hsp & Hno & ->)|(m & Hsp & Hm & Hc & ->)]].
  - left. by rewrite bool_decide_eq_true_2.
  - right; left. rewrite bool_decide_eq_false_2, Hno by done.
    split_and!; [by intros []|done..].
  - right; right. rewrite bool_decide_eq_false_2, Hm by done.
    split_and!; [by intros []|done..].
Qed.

Lemma pulses_eq tr : pulses tr = pulse_durations (waveform_from Idle tr).
Proof. reflexivity. Qed.

Lemma gaps_eq tr : gaps tr = gap_durations (waveform_from Idle tr).
Proof. reflexivity. Qed.

Lemma pulse_durations_app A B :
  pulse_durations (A ++ B) = pulse_durations A ++ pulse_durations B.
Proof. apply omap_app. Qed.

Lemma gap_durations_app A B :
  gap_durations (A ++ B) = gap_durations A ++ gap_durations B.
Proof. apply omap_app. Qed.

Lemma pulse_durations_edge st : pulse_durations (edge st) = [].
Proof. by destruct st. Qed.

Lemma pulse_durations_code m : pulse_durations (code_marks m) = symbol_duration <$> m.
Proof.
  induction m as [|s m IH]; [done|]. destruct m as [|s' m]; [done|].
  change (code_marks (s :: s' :: m))
    with ([Pulse (symbol_duration s); Gap (exact SYMBOL_SPACE)] ++ code_marks (s' :: m)).
  by rewrite pulse_durations_app, IH.
Qed.

Lemma gap_durations_code m :
  gap_durations (code_marks m) = replicate (length m - 1) (exact SYMBOL_SPACE).
Proof.
  induction m as [|s m IH]; [done|]. destruct m as [|s' m]; [done|].
  change (code_marks (s :: s' :: m))
    with ([Pulse (symbol_duration s); Gap (exact SYMBOL_SPACE)] ++ code_marks (s' :: m)).
  rewrite gap_durations_app, IH. simpl. by rewrite Nat.sub_0_r.
Qed.

(** The pulses of one character are those of its code, whatever silence
    came before, and the line is at rest afterwards. *)
Lemma char_pulses st c :
  resting st →
  pulse_durations (waveform_from st (char_events c)) = symbol_duration <$> sent_code c
  ∧ resting (phase_after st (char_events c)).
Proof.
  intros Hst. split; [|by apply char_resting].
  destruct (char_cases c) as [(_ & -> & ->)|[(_ & -> & ->)|(_ & Hc & ->)]].
  - by destruct st.
  - done.
  - apply andb_True in Hc as [Hne Hm]. apply bool_decide_spec in Hne.
    change (print_ ?t ?e :: ?E) with ([print_ t e] ++ E).
    rewrite !waveform_from_app.
    change (phase_after st [print_ _ _]) with st.
    change (waveform_from st [print_ _ _]) with (@nil mark).
    destruct (code_wave st (sent_code c) Hst Hm) as [-> ->].
    destruct (sent_code c) as [|s m] eqn:Hcode; [done|].
    rewrite app_nil_l, !pulse_durations_app, pulse_durations_edge, pulse_durations_code.
    simpl. by rewrite app_nil_r.
Qed.

Lemma chars_pulses st message :
  resting st →
  pulse_durations (waveform_from st (message ≫= char_events))
  = symbol_duration <$> (message ≫= sent_code).
Proof.
  revert st; induction message as [|c message IH]; intros st Hst; [done|].
  rewrite !bind_cons, waveform_from_app, pulse_durations_app, fmap_app.
  destruct (char_pulses st c Hst) as [-> Hst']. by rewrite IH.
Qed.

Lemma message_pulses st message :
  resting st →
  pulse_durations (waveform_from st (message_events message))
  = symbol_duration <$> (message ≫= sent_code)
  ∧ resting (phase_after st (message_events message)).
Proof.
  intros Hst. rewrite message_events_eq, waveform_from_app, phase_after_app.
  rewrite pulse_durations_app, chars_pulses by done.
  split; [by rewrite app_nil_r|]. by apply chars_resting.
Qed.

(** X1. The pulse train of a pass over any message is the Morse code of the
    message: its pulses are, in order, the dots and dashes of the codes of
    its characters (spaces and characters the table lacks add none), so every
    pulse lasts [DOT] or [DASH] and there are as many pulses as symbols. *)
Theorem pulses_are_the_code message :
  pulses (message_events message) = symbol_duration <$> (message ≫= sent_code)
  ∧ length (pulses (message_events message)) = length (message ≫= sent_code)
  ∧ Forall (λ d, d = exact DOT ∨ d = exact DASH) (pulses (message_events message)).
Proof.
  assert (pulses (message_events message)
          = symbol_duration <$> (message ≫= sent_code)) as Hp.
  { rewrite pulses_eq. by destruct (message_pulses Idle message I) as [-> _]. }
  rewrite Hp. split_and!; [done|by rewrite length_fmap|].
  apply Forall_fmap, Forall_forall. intros s _.
  cbv [compose symbol_duration symbol_sleep].
  destruct (decide (s = 46%N)); [by left|by right].
Qed.

(** X2. Within one letter or digit the pulses are exactly one symbol space
    apart: a pass over a single character has one gap less than it has
    symbols, each of [SYMBOL_SPACE]. *)
Theorem symbol_gaps_exact c :
  is_alnum c →
  waveform (message_events [c]) = code_marks (code_of c)
  ∧ gaps (message_events [c]) = replicate (length (code_of c) - 1) (exact SYMBOL_SPACE)
  ∧ pulses (message_events [c]) = symbol_duration <$> code_of c.
Proof.
  intros Hc.
  assert (waveform (message_events [c]) = code_marks (code_of c)) as Hw.
  { rewrite message_events_eq, bind_cons.
    change (mbind char_events []) with (@nil event). rewrite app_nil_r.
    unfold waveform. rewrite waveform_from_app.
    destruct (letter_wave Idle c I Hc) as [-> ->]. cbn [edge app waveform_from].
    by rewrite app_nil_r. }
  unfold waveform in Hw. rewrite gaps_eq, pulses_eq, Hw. split_and!; [done| |].
  - apply gap_durations_code.
  - apply pulse_durations_code.
Qed.

(** ** What a pass prints, and how long it takes *)

Lemma char_stdout c : stdout (char_events c) = token c.
Proof.
  unfold token.
  destruct (char_cases c) as [(_ & -> & ->)|[(_ & -> & ->)|(_ & Hc & ->)]]; [done..|].
  apply andb_True in Hc as [Hne Hm]. apply bool_decide_spec in Hne.
  change (print_ ?t ?e :: ?E) with ([print_ t e] ++ E).
  rewrite !stdout_app, symbol_events_silent by done.
  destruct (sent_code c); [done|]. simpl. by rewrite !app_nil_r.
Qed.

(** X3. A pass over a message prints, on one line, the code of every
    character that has one, each followed by a space, in the order of the
    message; spaces and characters without a code print nothing. *)
Theorem printed_pattern message :
  stdout (message_events message) = (message ≫= token) ++ [10%N].
Proof.
  rewrite message_events_eq, stdout_app. f_equal.
  induction message as [|c message IH]; [done|].
  by rewrite !bind_cons, stdout_app, char_stdout, IH.
Qed.

Lemma sleep_total_app A B :
  (sleep_total (A ++ B) == sleep_total A + sleep_total B)%Q.
Proof.
  induction A as [|e A IH]; simpl; [ring|].
  destruct e; try exact IH. rewrite IH. ring.
Qed.

Lemma times_0 : (times 0 == 0)%Q.
Proof. reflexivity. Qed.

Lemma times_S n : (times (S n) == times n + 1)%Q.
Proof. unfold times. by rewrite Nat2Z.inj_succ, <- Z.add_1_r, inject_Z_plus. Qed.

Lemma times_add n m : (times (n + m) == times n + times m)%Q.
Proof. unfold times. by rewrite Nat2Z.inj_add, inject_Z_plus. Qed.

Lemma symbol_events_time m :
  forallb is_symbol m →
  (sleep_total (symbol_events m)
   == times (length (filter (λ s, s = 46%N) m)) * (exact DOT + exact SYMBOL_SPACE)
      + times (length (filter (λ s, s = 45%N) m)) * (exact DASH + exact SYMBOL_SPACE))%Q.
Proof.
  induction m as [|s m IH].
  { intros _. change (sleep_total (symbol_events [])) with 0%Q.
    cbn [filter list_filter length]. rewrite times_0. ring. }
  intros [Hs Hm]%andb_True.
  rewrite symbol_events_cons, sleep_total_app, (IH Hm), (send_symbol_events s Hs).
  apply bool_decide_spec in Hs as [-> | ->].
  - rewrite filter_cons_True, (filter_cons_False _ 46%N) by done.
    cbn [length]. rewrite times_S. cbn [sleep_total foldr]. unfold symbol_sleep.
    rewrite decide_True by done. ring.
  - rewrite (filter_cons_False _ 45%N), (filter_cons_True _ 45%N) by done.
    cbn [length]. rewrite times_S. cbn [sleep_total foldr]. unfold symbol_sleep.
    rewrite decide_False by done. ring.
Qed.

(** X4. The time a pass over a message sleeps is a sum over what the message
    holds: a pulse and a symbol space for every dot and every dash, the
    closing sleep of [send_character] for every character that has a code,
    and the sleep of the space branch for every space; a character without
    a code takes no time.  The sum is that of the exact values slept. *)
Theorem pass_duration message :
  (sleep_total (message_events message)
   == times (dots message) * (exact DOT + exact SYMBOL_SPACE)
      + times (dashes message) * (exact DASH + exact SYMBOL_SPACE)
      + times (letters message) * exact (LETTER_SPACE - SYMBOL_SPACE)%float
      + times (spaces message) * exact (WORD_SPACE - LETTER_SPACE)%float)%Q.
Proof.
  rewrite message_events_eq, sleep_total_app.
  change (sleep_total [print_ [] [10%N]]) with 0%Q.
  rewrite Qplus_0_r. unfold dots, dashes, letters, spaces.
  induction message as [|c message IH].
  { change (sleep_total (mbind char_events [])) with 0%Q.
    change (mbind sent_code []) with (@nil N).
    cbn [filter list_filter length]. rewrite times_0. ring. }
  rewrite !bind_cons, sleep_total_app, IH, !filter_app, !length_app, !times_add.
  clear IH.
  destruct (char_cases c) as [(Hsp & Hno & ->)|[(Hsp & Hno & ->)|(Hsp & Hc & ->)]].
  - rewrite (filter_cons_False (λ c0, sent_code c0 ≠ []) c) by (intros H; by apply H).
    rewrite (filter_cons_True (λ c0, is_space c0 : Prop) c) by done. rewrite Hno.
    cbn [length filter list_filter app]. rewrite times_S, times_0.
    cbn [sleep_total foldr]. ring.
  - rewrite (filter_cons_False (λ c0, sent_code c0 ≠ []) c) by (intros H; by apply H).
    rewrite (filter_cons_False (λ c0, is_space c0 : Prop) c) by done. rewrite Hno.
    cbn [length filter list_filter app]. rewrite times_0.
    change (sleep_total []) with 0%Q. ring.
  - apply andb_True in Hc as [Hne Hm]. apply bool_decide_spec in Hne.
    rewrite (filter_cons_True (λ c0, sent_code c0 ≠ []) c) by done.
    rewrite (filter_cons_False (λ c0, is_space c0 : Prop) c) by done.
    change (print_ ?t ?e :: ?E) with ([print_ t e] ++ E).
    rewrite !sleep_total_app, (symbol_events_time _ Hm).
    cbn [length]. rewrite times_S.
    change (sleep_total [print_ _ _]) with 0%Q. cbn [sleep_total foldr]. ring.
Qed.




(** ** Spaces and skipped characters between letters *)

(** A run of characters that send no code, spaces or not, makes no mark;
    it lengthens the silence by [WORD_SPACE - LETTER_SPACE] per space. *)
Lemma silent_run mid a :
  Forall (λ c, sent_code c = []) mid →
  waveform_from (Off (Some a)) (mid ≫= char_events) = []
  ∧ ∃ t, phase_after (Off (Some a)) (mid ≫= char_events) = Off (Some t)
         ∧ (t == a + times (length (filter is_space mid))
                     * exact (WORD_SPACE - LETTER_SPACE)%float)%Q.
Proof.
  intros Hmid. revert a. induction Hmid as [|c mid Hc _ IH]; intros a.
  - split; [done|]. exists a. split; [done|]. unfold times. simpl. ring.
  - rewrite bind_cons, waveform_from_app, phase_after_app.
    destruct (char_cases c) as [(Hsp & _ & ->)|[(Hsp & _ & ->)|(_ & Hcode & _)]].
    + destruct (IH (a + exact (WORD_SPACE - LETTER_SPACE)%float)%Q)
        as (Hw & t & Hp & Ht).
      split; [exact Hw|]. exists t. split; [exact Hp|].
      rewrite filter_cons_True by done. rewrite Ht.
      cbn [length]. rewrite times_S. ring.
    + destruct (IH a) as (Hw & t & Hp & Ht).
      split; [exact Hw|]. exists t. split; [exact Hp|].
      by rewrite filter_cons_False.
    + by rewrite Hc in Hcode.
Qed.

(** X6. Between two letters or digits separated by any run of spaces and of
    characters without a code, the gap is the two sleeps that follow the
    letter plus, for every space of the run, the one sleep of the space
    branch: a second space adds [WORD_SPACE - LETTER_SPACE] again, not a whole
    word space, and characters without a code in between add nothing. *)
Theorem gap_across_spaces pre c1 mid c2 post :
  is_alnum c1 → is_alnum c2 → Forall (λ c, sent_code c = []) mid →
  ∃ t,
    waveform (message_events (pre ++ c1 :: mid ++ c2 :: post))
    = waveform (message_events (pre ++ [c1]))
        ++ Gap t :: code_marks (code_of c2)
        ++ waveform_from (Off (Some after_letter)) (message_events post)
    ∧ (t == exact SYMBOL_SPACE + exact (LETTER_SPACE - SYMBOL_SPACE)%float
            + times (length (filter is_space mid))
              * exact (WORD_SPACE - LETTER_SPACE)%float)%Q.
Proof.
  intros H1 H2 Hmid.
  destruct (silent_run mid after_letter Hmid) as (Hw & t & Hp & Ht).
  exists t. split; [by apply next_letter|]. exact Ht.
Qed.

(** X7. [send_character] sends single characters only: called on the empty
    string or on a string of two or more characters it does nothing at all,
    in every world, since no key of the table is that long; the same holds
    for the single character U+00DF, whose uppercase form is SS. *)
Theorem not_a_single_character char w :
  length char ≠ 1%nat →
  send_character char w = (Returns (), w)
  ∧ send_character [223%N] w = (Returns (), w).
Proof.
  intros Hlen.
  assert (∀ u, length (upper u) ≠ 1%nat → send_character u w = (Returns (), w))
    as Hskip.
  { intros u Hu. unfold send_character. cbv zeta.
    rewrite decide_False by (intros Heq; by rewrite Heq in Hu).
    destruct (MORSE_CODE !! upper u) as [m|] eqn:Hm; [|done].
    destruct (table_keys (upper u)) as (x & Hx & _); [by eexists|].
    by rewrite Hx in Hu. }
  split; [|by apply Hskip]. apply Hskip.
  destruct char as [|c1 [|c2 char]]; [done|done|].
  unfold upper. rewrite !bind_cons, !length_app.
  assert (∀ c, (1 ≤ length (upper_cp c))%nat) as Hpos.
  { intros c. unfold upper_cp. repeat case_bool_decide; simpl; lia. }
  pose proof (Hpos c1). pose proof (Hpos c2). lia.
Qed.

(** ** The command line: refusals *)

Lemma print_cut text t :
  print text (World t (Some O)) = (Raises KeyboardInterrupt, World t None).
Proof. reflexivity. Qed.

(** What follows a program that never returns is never run. *)
Lemma bind_dead (m rest : M unit) w :
  (∀ w', m w ≠ (Returns (), w')) → (m ;; rest) w = m w.
Proof.
  intros H. rewrite bind_run. destruct (m w) as [[[]|e] w']; [|done].
  by destruct (H w').
Qed.

Lemma exit_dead (m : M unit) code w w' : (m ;; sys_exit code) w ≠ (Returns (), w').
Proof. rewrite bind_run. by destruct (m w) as [[[]|e] w'']. Qed.

(** With fewer than three arguments, [main] is the usage message and the
    exit. *)
Lemma main_usage argv w :
  (length argv < 3)%nat →
  main argv w
  = (print (lit "Usage: python3 send.py <repetitions> <message>") ;;
     (print (lit "Example: python3 send.py 4 " ++ [34%N] ++ lit "hello ESP32" ++ [34%N]) ;;
      sys_exit 1)) w.
Proof.
  intros Hlen. unfold main. rewrite bool_decide_eq_true_2 by done.
  apply bind_dead. intros w'. rewrite bind_run.
  destruct (print _ w) as [[[]|e] w'']; [apply exit_dead|done].
Qed.

(** X8. With fewer than three command-line arguments [main] prints the usage
    line and the example line and exits with status 1; in no world,
    interrupted or not, does it touch the GPIO or return normally. *)
Theorem usage_error argv :
  (length argv < 3)%nat →
  main argv quiet = (Raises (SystemExit 1), World usage_events None)
  ∧ exit_code (main argv quiet).1 = 1
  ∧ ∀ w, ∃ E,
      trace (main argv w).2 = trace w ++ E
      ∧ forallb (λ e, negb (is_pin_event e)) E
      ∧ (main argv w).1 ≠ Returns ().
Proof.
  intros Hlen. split_and!.
  - by rewrite main_usage.
  - by rewrite main_usage.
  - intros w. rewrite main_usage by done. destruct w as [t [[|[|k]]|]].
    + rewrite bind_run, print_cut. exists []. by rewrite app_nil_r.
    + rewrite bind_run, print_pass, bind_run, print_cut. by eexists [_].
    + rewrite bind_run, print_pass, bind_run, print_pass.
      eexists [_; _]. by rewrite <- app_assoc.
    + rewrite bind_run, print_quiet, bind_run, print_quiet.
      eexists [_; _]. by rewrite <- app_assoc.
Qed.

(** With a count that [int] rejects, [main] is the format error and the
    exit. *)
Lemma main_format argv w :
  (3 ≤ length argv)%nat → int (argv !!! 1%nat) = None →
  main argv w = (perform format_error ;; sys_exit 1) w.
Proof.
  intros Hlen Hint. unfold main. rewrite bool_decide_eq_false_2 by lia.
  rewrite Hint. rewrite !bind_run. cbn [mret M_ret].
  unfold try_except. rewrite !bind_run. cbn [from_option raise is_ValueError].
  change (print (lit "Error: First argument must be a number"))
    with (perform format_error).
  rewrite bind_run. by destruct (perform format_error w) as [[[]|x] w'].
Qed.

(** X9. When the first argument is not a number ([int] raises [ValueError]),
    [main] prints the format error and exits with status 1; in no world does
    it touch the GPIO or return normally. *)
Theorem not_a_number argv :
  (3 ≤ length argv)%nat → int (argv !!! 1%nat) = None →
  main argv quiet = (Raises (SystemExit 1), World [format_error] None)
  ∧ exit_code (main argv quiet).1 = 1
  ∧ ∀ w, ∃ E,
      trace (main argv w).2 = trace w ++ E
      ∧ forallb (λ e, negb (is_pin_event e)) E
      ∧ (main argv w).1 ≠ Returns ().
Proof.
  intros Hlen Hint. split_and!.
  - by rewrite main_format.
  - by rewrite main_format.
  - intros w. rewrite main_format by done. destruct w as [t [[|k]|]].
    + exists []. by rewrite app_nil_r.
    + by exists [format_error].
    + by exists [format_error].
Qed.

(** ** The command line: whole runs *)

(** After the two lines that [main] prints first, what is left is the [try]
    statement. *)
Lemma main_after_banner prog r message rest repetitions t k :
  int r = Some repetitions → 1 ≤ repetitions →
  main (prog :: r :: message :: rest) (World t (Some (2 + k)%nat))
  = try_finally
      (try_except (transmission repetitions message) is_KeyboardInterrupt
         (print ([10%N] ++ lit "Transmission interrupted by user")))
      cleanup_gpio (World (t ++ banner repetitions message) (Some k)).
Proof.
  intros Hr Hn. rewrite (main_run _ _ _ _ _ _ Hr).
  rewrite bool_decide_eq_false_2 by lia.
  rewrite bind_run. cbn [mret M_ret Nat.add].
  rewrite bind_run, print_pass, bind_run, print_pass.
  by rewrite <- app_assoc.
Qed.

(** The [try] statement of [main], when the interrupt arrives after the
    [try] block: during [cleanup_gpio], or later. *)
Lemma guarded_late repetitions message t k :
  (length (events_of (transmission repetitions message)) ≤ k)%nat →
  try_finally
    (try_except (transmission repetitions message) is_KeyboardInterrupt
       (print ([10%N] ++ lit "Transmission interrupted by user")))
    cleanup_gpio (World t (Some k))
  = play [GPIO_output LED_PIN LOW; GPIO_cleanup]
      (World (t ++ events_of (transmission repetitions message))
         (Some (k - length (events_of (transmission repetitions message)))%nat)).
Proof.
  intros Hk. unfold try_finally, try_except.
  rewrite (performs_self _ _ (performs_transmission repetitions message)).
  rewrite play_pass by done. rewrite performs_cleanup_gpio.
  by destruct (play _ _) as [[[]|e] w'].
Qed.

Lemma passes_low n message :
  foldl line_step (Some LOW) (concat (replicate n (message_events message)))
  = Some LOW.
Proof.
  induction n as [|n IH]; [done|].
  cbn [replicate concat]. by rewrite foldl_app, message_events_low.
Qed.

(** The [try] block leaves the line low, whatever it was. *)
Lemma transmission_low st repetitions message :
  foldl line_step st (events_of (transmission repetitions message)) = Some LOW.
Proof.
  rewrite transmission_events, !foldl_app.
  change (foldl line_step st (events_of setup_gpio)) with (Some LOW).
  by rewrite passes_low.
Qed.

(** X10. With valid arguments and no interrupt, [main] returns (exit status
    0) after the two banner lines, [setup_gpio], exactly [repetitions] passes
    over the message, the completion line and [cleanup_gpio], in this order;
    [GPIO.cleanup] is its last effect and the line is low at the end. *)
Theorem normal_run prog r message rest repetitions :
  int r = Some repetitions → 1 ≤ repetitions →
  main (prog :: r :: message :: rest) quiet
  = (Returns (), World (run_events repetitions message) None)
  ∧ exit_code (main (prog :: r :: message :: rest) quiet).1 = 0
  ∧ last (run_events repetitions message) = Some GPIO_cleanup
  ∧ line (run_events repetitions message) = Some LOW.
Proof.
  intros Hr Hn.
  assert (main (prog :: r :: message :: rest) quiet
          = (Returns (), World (run_events repetitions message) None)) as Hrun.
  { unfold quiet. rewrite (main_quiet _ _ _ _ _ _ Hr Hn), transmission_events.
    unfold run_events. by rewrite <- !app_assoc. }
  split_and!; [done|by rewrite Hrun| |].
  - unfold run_events. by rewrite !last_app.
  - unfold run_events. rewrite !app_assoc, !line_app. reflexivity.
Qed.

Lemma passes_pulses st n message :
  resting st →
  pulse_durations (waveform_from st (concat (replicate n (message_events message))))
  = concat (replicate n (symbol_duration <$> (message ≫= sent_code)))
  ∧ resting (phase_after st (concat (replicate n (message_events message)))).
Proof.
  revert st; induction n as [|n IH]; intros st Hst; [done|].
  cbn [replicate concat].
  rewrite waveform_from_app, phase_after_app, pulse_durations_app.
  destruct (message_pulses st message Hst) as [-> Hst'].
  by destruct (IH _ Hst') as [-> ?].
Qed.

(** X11. The pulse train of a whole run is the pulse train of the message,
    [repetitions] times over: the banner, the set-up, the completion line and
    the clean-up add no pulse, so a run has [repetitions] times as many
    pulses as the message has symbols. *)
Theorem run_pulses repetitions message :
  pulses (run_events repetitions message)
  = concat (replicate (Z.to_nat repetitions)
              (symbol_duration <$> (message ≫= sent_code)))
  ∧ length (pulses (run_events repetitions message))
    = (Z.to_nat repetitions * length (message ≫= sent_code))%nat.
Proof.
  assert (pulses (run_events repetitions message)
          = concat (replicate (Z.to_nat repetitions)
                      (symbol_duration <$> (message ≫= sent_code)))) as Hp.
  { rewrite pulses_eq. unfold run_events.
    rewrite !waveform_from_app, !pulse_durations_app.
    change (phase_after Idle (banner repetitions message)) with Idle.
    change (phase_after Idle (events_of setup_gpio)) with Idle.
    change (waveform_from Idle (banner repetitions message)) with (@nil mark).
    change (waveform_from Idle (events_of setup_gpio)) with (@nil mark).
    destruct (passes_pulses Idle (Z.to_nat repetitions) message I) as [-> Hst].
    destruct (phase_after _ _); [| done |]; by rewrite app_nil_r. }
  split; [done|]. rewrite Hp. clear Hp.
  induction (Z.to_nat repetitions) as [|n IH]; [done|].
  cbn [replicate concat]. rewrite length_app, IH, length_fmap. lia.
Qed.

(** ** The command line: interrupts outside the [try] block *)

(** X12. An interrupt that arrives while [main] prints its two banner lines,
    before the [try] statement, is not caught: [KeyboardInterrupt] leaves
    [main], nothing but the banner lines printed so far has happened, and
    neither [setup_gpio] nor [cleanup_gpio] runs. *)
Theorem interrupt_before_transmission prog r message rest repetitions t k :
  int r = Some repetitions → 1 ≤ repetitions → (k < 2)%nat →
  main (prog :: r :: message :: rest) (World t (Some k))
  = (Raises KeyboardInterrupt, World (t ++ take k (banner repetitions message)) None).
Proof.
  intros Hr Hn Hk. rewrite (main_run _ _ _ _ _ _ Hr).
  rewrite bool_decide_eq_false_2 by lia.
  rewrite bind_run. cbn [mret M_ret].
  destruct k as [|[|k]]; [| |lia].
  - rewrite bind_run, print_cut. by rewrite app_nil_r.
  - by rewrite bind_run, print_pass, bind_run, print_cut.
Qed.

(** X13. An interrupt that arrives during [cleanup_gpio], after the [try]
    block has completed, is not caught either: [KeyboardInterrupt] leaves
    [main] and the rest of the clean-up is not performed; the line is low
    all the same, because the transmission left it low. *)
Theorem interrupt_during_cleanup prog r message rest repetitions j :
  int r = Some repetitions → 1 ≤ repetitions → (j < 2)%nat →
  main (prog :: r :: message :: rest)
    (World [] (Some (2 + (length (events_of (transmission repetitions message)) + j))%nat))
  = (Raises KeyboardInterrupt,
     World (banner repetitions message
              ++ events_of (transmission repetitions message)
              ++ take j [GPIO_output LED_PIN LOW; GPIO_cleanup]) None)
  ∧ line (banner repetitions message
            ++ events_of (transmission repetitions message)
            ++ take j [GPIO_output LED_PIN LOW; GPIO_cleanup]) = Some LOW.
Proof.
  intros Hr Hn Hj. split.
  - rewrite (main_after_banner _ _ _ _ _ _ _ Hr Hn), guarded_late by lia.
    replace (_ + j - _)%nat with j by lia.
    rewrite play_cut by (simpl; lia). by rewrite <- app_assoc.
  - rewrite app_assoc, line_app, (line_app (banner _ _)), transmission_low.
    destruct j as [|[|j]]; [reflexivity..|lia].
Qed.

(** X14. The LED is never left on: once [setup_gpio] has run, whenever the
    interrupt arrives (during a pulse, between pulses, during the clean-up
    or never) the line is low when [main] is over. *)
Theorem led_off_at_exit prog r message rest repetitions s :
  int r = Some repetitions → 1 ≤ repetitions →
  (∀ k, s = Some k → (6 ≤ k)%nat) →
  line (trace (main (prog :: r :: message :: rest) (World [] s)).2) = Some LOW.
Proof.
  intros Hr Hn Hs. destruct s as [k|].
  - specialize (Hs k eq_refl).
    replace k with (2 + (k - 2))%nat by lia.
    rewrite (main_after_banner _ _ _ _ _ _ _ Hr Hn).
    set (E := events_of (transmission repetitions message)).
    destruct (decide (k - 2 < length E)%nat) as [Hin|Hout].
    + rewrite guarded_interrupted by done. cbn [snd trace].
      rewrite !app_assoc, line_app. reflexivity.
    + rewrite guarded_late by (fold E; lia). fold E.
      assert (line (([] ++ banner repetitions message) ++ E) = Some LOW) as HE.
      { rewrite line_app. apply transmission_low. }
      destruct (k - 2 - length E)%nat as [|[|j]].
      * rewrite play_cut by (simpl; lia). cbn [snd trace take].
        by rewrite app_nil_r.
      * rewrite play_cut by (simpl; lia). cbn [snd trace take].
        by rewrite line_app, HE.
      * rewrite play_pass by (simpl; lia). cbn [snd trace].
        by rewrite line_app, HE.
  - rewrite (main_quiet _ _ _ _ _ _ Hr Hn). cbn [snd trace].
    rewrite !app_assoc, line_app. reflexivity.
Qed.

(** ** Skipped characters and the whole run *)

(** X16. Characters without a code are as good as absent: deleting them
    from a message changes nothing of what a pass over it does. *)
Theorem skipped_as_absent message :
  message_events (filter is_sent message) = message_events message.
Proof.
  rewrite !message_events_eq. f_equal.
  induction message as [|c message IH]; [done|].
  rewrite bind_cons, <- IH. unfold is_sent at 1.
  destruct (char_cases c) as [(Hsp & _ & _)|[(Hsp & Hno & ->)|(Hsp & Hc & _)]].
  - rewrite filter_cons_True; [by rewrite bind_cons|].
    by apply orb_True; left.
  - rewrite filter_cons_False; [done|].
    intros [?|Hne%bool_decide_spec]%orb_True; done.
  - rewrite filter_cons_True; [by rewrite bind_cons|].
    apply orb_True; right. apply bool_decide_spec. intros Heq.
    by rewrite Heq in Hc.
Qed.

Lemma line_step_rest st e :
  is_assert e = false → st ≠ Some HIGH → line_step st e ≠ Some HIGH.
Proof.
  intros He Hst. destruct e as [| | |pin []| | |]; try done.
  simpl. by case_decide.
Qed.

(** [pulsed_high], from any state of the line but high. *)
Lemma pulsed_high_from st tr A B :
  pulsed tr → st ≠ Some HIGH → tr = A ++ B →
  foldl line_step st A = Some HIGH → in_pulse A B.
Proof.
  intros Htr. revert st A.
  induction Htr as [|d tr Htr IH|e tr He Htr IH]; intros st A Hst HA Hh.
  - apply eq_sym, app_eq_nil in HA as [-> _]. by destruct Hst.
  - destruct A as [|e1 [|e2 [|e3 A]]]; simplify_eq/=.
    + exists [], d, tr. by left.
    + exists [], d, tr. by right.
    + destruct (IH (Some LOW) A) as (A' & d' & B' & [[-> ->]|[-> ->]]);
        [done|done|done| |].
      * exists (GPIO_output LED_PIN HIGH :: time_sleep d
                  :: GPIO_output LED_PIN LOW :: A'), d', B'. by left.
      * exists (GPIO_output LED_PIN HIGH :: time_sleep d
                  :: GPIO_output LED_PIN LOW :: A'), d', B'. by right.
  - destruct A as [|e1 A]; simplify_eq/=.
    destruct (IH (line_step st e1) A) as (A' & d' & B' & [[-> ->]|[-> ->]]);
      [by apply line_step_rest|done|done| |].
    + exists (e1 :: A'), d', B'. by left.
    + exists (e1 :: A'), d', B'. by right.
Qed.

Lemma run_events_pulsed repetitions message : pulsed (run_events repetitions message).
Proof.
  unfold run_events.
  apply pulsed_app; [by repeat constructor|].
  apply pulsed_app; [by repeat constructor|].
  apply pulsed_app; [|by repeat constructor].
  induction (Z.to_nat repetitions) as [|n IH]; [constructor|].
  cbn [replicate concat]. apply pulsed_app; [apply message_events_pulsed|apply IH].
Qed.

(** X15. Throughout an uninterrupted run of [main], from its first effect to
    its last, the line is high only while a pulse is in progress: at every
    point at which the LED is on, the pin has just been driven high and the
    sleep of the pulse follows, or that sleep is over and the pin is driven
    low next. *)
Theorem led_on_only_in_pulses repetitions message A B :
  run_events repetitions message = A ++ B → line A = Some HIGH → in_pulse A B.
Proof.
  intros HAB Hh.
  by apply (pulsed_high_from None (run_events repetitions message) A B
              (run_events_pulsed repetitions message)).
Qed.

End Sender.

(** ** The script as configured: [DOT = 0.1] *)

(** The constants of the script, as binary64 numbers: 0.30000000000000004
    for [DASH] and [LETTER_SPACE], 0.7000000000000001 for [WORD_SPACE], and
    0.20000000000000004 and 0.4 for the two compensating sleeps. *)
Lemma script_constants :
  DASH DOT_script = 0x1.3333333333334p-2%float
  ∧ LETTER_SPACE DOT_script = 0x1.3333333333334p-2%float
  ∧ WORD_SPACE DOT_script = 0x1.6666666666667p-1%float
  ∧ (LETTER_SPACE DOT_script - SYMBOL_SPACE DOT_script)%float
    = 0x1.999999999999bp-3%float
  ∧ (WORD_SPACE DOT_script - LETTER_SPACE DOT_script)%float
    = 0x1.999999999999ap-2%float.
Proof. by vm_compute. Qed.

(** The two subtractions of the script lose nothing: the sleeps after a
    letter add up to [LETTER_SPACE], and with the sleep of a space to
    [WORD_SPACE], as numbers. *)
Lemma script_sleeps_add_up :
  (exact (SYMBOL_SPACE DOT_script)
   + exact (LETTER_SPACE DOT_script - SYMBOL_SPACE DOT_script)%float
   == exact (LETTER_SPACE DOT_script))%Q
  ∧ (exact (SYMBOL_SPACE DOT_script)
     + exact (LETTER_SPACE DOT_script - SYMBOL_SPACE DOT_script)%float
     + exact (WORD_SPACE DOT_script - LETTER_SPACE DOT_script)%float
     == exact (WORD_SPACE DOT_script))%Q.
Proof. by vm_compute. Qed.

(** The two products of the script are rounded up: each is [2^-55] seconds
    more than the multiple of [DOT] it stands for. *)
Lemma script_rounding :
  (exact (DASH DOT_script) == 3 * exact DOT_script + (1 # 2 ^ 55))%Q
  ∧ (exact (LETTER_SPACE DOT_script) == 3 * exact DOT_script + (1 # 2 ^ 55))%Q
  ∧ (exact (WORD_SPACE DOT_script) == 7 * exact DOT_script + (1 # 2 ^ 55))%Q.
Proof. by vm_compute. Qed.

(** C1, as amended. Between two consecutive letters or digits of a message,
    the line is low from the end of the last pulse of the first to the start
    of the first pulse of the second for exactly [LETTER_SPACE] as the script
    computes it, not [LETTER_SPACE] and a symbol space: the symbol space that
    follows the last pulse and the [LETTER_SPACE - SYMBOL_SPACE] that
    [send_character] sleeps add up to it without loss.  [LETTER_SPACE] is the
    binary64 product [DOT * 3], 0.30000000000000004 at the script's
    [DOT = 0.1]: three units and [2^-55] seconds. *)
Theorem letter_gap_exact pre c1 c2 post :
  is_alnum c1 → is_alnum c2 →
  waveform (message_events DOT_script (pre ++ c1 :: c2 :: post))
  = waveform (message_events DOT_script (pre ++ [c1]))
      ++ Gap (exact (SYMBOL_SPACE DOT_script)
              + exact (LETTER_SPACE DOT_script - SYMBOL_SPACE DOT_script)%float)
      :: code_marks DOT_script (code_of c2)
      ++ waveform_from (Off (Some (after_letter DOT_script)))
           (message_events DOT_script post)
  ∧ (∃ s, last (code_of c1) = Some s
          ∧ last (waveform (message_events DOT_script (pre ++ [c1])))
            = Some (Pulse (symbol_duration DOT_script s)))
  ∧ (∃ s, head (code_of c2) = Some s
          ∧ head (code_marks DOT_script (code_of c2))
            = Some (Pulse (symbol_duration DOT_script s)))
  ∧ (exact (SYMBOL_SPACE DOT_script)
     + exact (LETTER_SPACE DOT_script - SYMBOL_SPACE DOT_script)%float
     == exact (LETTER_SPACE DOT_script))%Q
  ∧ LETTER_SPACE DOT_script = (DOT_script * 3)%float
  ∧ LETTER_SPACE DOT_script = 0x1.3333333333334p-2%float
  ∧ (exact (LETTER_SPACE DOT_script) == 3 * exact DOT_script + (1 # 2 ^ 55))%Q.
Proof.
  intros H1 H2.
  destruct (letter_gap_sleeps DOT_script pre c1 c2 post H1 H2) as (Hw & Hl & Hh).
  split_and!; [exact Hw|exact Hl|exact Hh| |reflexivity| |].
  - apply script_sleeps_add_up.
  - apply script_constants.
  - apply script_rounding.
Qed.

(** C1, as stated, fails: in "EE" the gap between the two letters is not
    three times [DOT]. *)
Lemma letter_gap_not_three_units :
  ∃ g, gaps (message_events DOT_script (lit "EE")) = [g]
       ∧ ¬ (g == 3 * exact DOT_script)%Q.
Proof. eexists. split; [by vm_compute|by vm_compute]. Qed.

(** C2, as amended. Across a single space between two letters or digits, the
    line is low from the last pulse before the space to the first pulse after
    it for exactly [WORD_SPACE] as the script computes it: the
    [LETTER_SPACE] that has built up after the letter and the
    [WORD_SPACE - LETTER_SPACE] that the space sleeps add up to it without
    loss, and the space itself only sleeps.  [WORD_SPACE] is the binary64
    product [DOT * 7], 0.7000000000000001 at the script's [DOT = 0.1]: seven
    units and [2^-55] seconds. *)
Theorem word_gap_exact pre c1 c2 post :
  is_alnum c1 → is_alnum c2 →
  waveform (message_events DOT_script (pre ++ c1 :: 32%N :: c2 :: post))
  = waveform (message_events DOT_script (pre ++ [c1]))
      ++ Gap (exact (SYMBOL_SPACE DOT_script)
              + exact (LETTER_SPACE DOT_script - SYMBOL_SPACE DOT_script)%float
              + exact (WORD_SPACE DOT_script - LETTER_SPACE DOT_script)%float)
      :: code_marks DOT_script (code_of c2)
      ++ waveform_from (Off (Some (after_letter DOT_script)))
           (message_events DOT_script post)
  ∧ (∃ s, last (code_of c1) = Some s
          ∧ last (waveform (message_events DOT_script (pre ++ [c1])))
            = Some (Pulse (symbol_duration DOT_script s)))
  ∧ (∃ s, head (code_of c2) = Some s
          ∧ head (code_marks DOT_script (code_of c2))
            = Some (Pulse (symbol_duration DOT_script s)))
  ∧ char_events DOT_script 32
    = [time_sleep (WORD_SPACE DOT_script - LETTER_SPACE DOT_script)%float]
  ∧ (exact (SYMBOL_SPACE DOT_script)
     + exact (LETTER_SPACE DOT_script - SYMBOL_SPACE DOT_script)%float
     + exact (WORD_SPACE DOT_script - LETTER_SPACE DOT_script)%float
     == exact (WORD_SPACE DOT_script))%Q
  ∧ WORD_SPACE DOT_script = (DOT_script * 7)%float
  ∧ WORD_SPACE DOT_script = 0x1.6666666666667p-1%float
  ∧ (exact (WORD_SPACE DOT_script) == 7 * exact DOT_script + (1 # 2 ^ 55))%Q.
Proof.
  intros H1 H2.
  destruct (word_gap_sleeps DOT_script pre c1 c2 post H1 H2) as (Hw & Hl & Hh & Hs).
  split_and!; [exact Hw|exact Hl|exact Hh|exact Hs| |reflexivity| |].
  - apply script_sleeps_add_up.
  - apply script_constants.
  - apply script_rounding.
Qed.

(** C2, as stated, fails.  In "E  T" the first space stands between an E and
    a space, both supported characters, and the silence from the pulse before
    it to the pulse after it is not [WORD_SPACE]: the second space has added
    its sleep.  Nor is [WORD_SPACE] seven times [DOT]. *)
Lemma double_space_is_not_word_space :
  is_supported 69 ∧ is_supported 32
  ∧ (∃ g, gaps (message_events DOT_script (lit "E  T")) = [g]
          ∧ ¬ (g == exact (WORD_SPACE DOT_script))%Q
          ∧ (g == exact (WORD_SPACE DOT_script)
                  + exact (WORD_SPACE DOT_script - LETTER_SPACE DOT_script)%float)%Q)
  ∧ ¬ (exact (WORD_SPACE DOT_script) == 7 * exact DOT_script)%Q.
Proof.
  split_and!; [done|done| |by vm_compute].
  eexists. split_and!; by vm_compute.
Qed.



(** C3, as stated, fails: one pass over SOS has 9 pulses, not 27. *)
Lemma sos_pass_is_not_27 :
  ¬ (length (pulses (message_events DOT_script (lit "SOS"))) = 27%nat).
Proof. by vm_compute. Qed.

(** C4, as stated, fails: U+017F, the long s, is outside the supported set,
    and [send_character] sends it as an S. *)
Lemma long_s_is_sent :
  ¬ (∀ c w, is_supported c = false → send_character DOT_script [c] w = (Returns (), w)).
Proof. intros H. by specialize (H 383%N quiet eq_refl). Qed.

(** What the script does with the long s. *)
Example long_s_events :
  char_events DOT_script 383
  = [print_ (lit "...") (lit " ");
     GPIO_output 17 HIGH; time_sleep DOT_script; GPIO_output 17 LOW;
     time_sleep DOT_script;
     GPIO_output 17 HIGH; time_sleep DOT_script; GPIO_output 17 LOW;
     time_sleep DOT_script;
     GPIO_output 17 HIGH; time_sleep DOT_script; GPIO_output 17 LOW;
     time_sleep DOT_script;
     time_sleep (DOT_script * 3 - DOT_script)%float].
Proof. reflexivity. Qed.

(** The gaps of "SO S": a symbol space between symbols, [LETTER_SPACE]
    between S and O, [WORD_SPACE] across the space. *)
Example so_s_gaps :
  Forall2 Qeq (gaps (message_events DOT_script (lit "SO S")))
    (exact <$> [SYMBOL_SPACE DOT_script; SYMBOL_SPACE DOT_script;
                LETTER_SPACE DOT_script;
                SYMBOL_SPACE DOT_script; SYMBOL_SPACE DOT_script;
                WORD_SPACE DOT_script;
                SYMBOL_SPACE DOT_script; SYMBOL_SPACE DOT_script]).
Proof. vm_compute. repeat constructor. Qed.

(** Mixed case, digits and a space: no character of "hello ESP32" is
    skipped. *)
Example hello_pattern :
  stdout (message_events DOT_script (lit "hello ESP32"))
  = lit ".... . .-.. .-.. --- . ... .--. ...-- ..--- " ++ [10%N].
Proof. reflexivity. Qed.

(** PARIS and a space, the standard word: ten dots, four dashes, five
    letters and a space, fifty units in all. *)
Example paris_counts :
  dots (lit "PARIS ") = 10%nat ∧ dashes (lit "PARIS ") = 4%nat
  ∧ letters (lit "PARIS ") = 5%nat ∧ spaces (lit "PARIS ") = 1%nat.
Proof. by vm_compute. Qed.


(** ** The theorems at concrete inputs *)

(** "SO": the gap between S and O. *)
Lemma letter_gap_exact_witness :
  waveform (message_events DOT_script (lit "SO"))
  = waveform (message_events DOT_script (lit "S"))
      ++ Gap (exact (SYMBOL_SPACE DOT_script)
              + exact (LETTER_SPACE DOT_script - SYMBOL_SPACE DOT_script)%float)
      :: code_marks DOT_script (code_of 79)
      ++ waveform_from (Off (Some (after_letter DOT_script)))
           (message_events DOT_script []).
Proof. exact (proj1 (letter_gap_exact [] 83 79 [] I I)). Defined.

(** "E T": the gap across the space. *)
Lemma word_gap_exact_witness :
  waveform (message_events DOT_script (lit "E T"))
  = waveform (message_events DOT_script (lit "E"))
      ++ Gap (exact (SYMBOL_SPACE DOT_script)
              + exact (LETTER_SPACE DOT_script - SYMBOL_SPACE DOT_script)%float
              + exact (WORD_SPACE DOT_script - LETTER_SPACE DOT_script)%float)
      :: code_marks DOT_script (code_of 84)
      ++ waveform_from (Off (Some (after_letter DOT_script)))
           (message_events DOT_script []).
Proof. exact (proj1 (word_gap_exact [] 69 84 [] I I)). Defined.

(** The exclamation mark is skipped. *)
Lemma unsupported_skipped_witness :
  send_character DOT_script (lit "!") quiet = (Returns (), quiet) ∧ char_events DOT_script 33 = [].
Proof.
  apply (unsupported_skipped DOT_script 33 quiet); [reflexivity|lia|lia].
Defined.

(** [s] and [S]. *)
Lemma case_insensitive_witness :
  upper (lower (lit "S")) = upper (lit "S")
  ∧ send_character DOT_script (lower (lit "S")) quiet = send_character DOT_script (lit "S") quiet.
Proof. apply (case_insensitive DOT_script 83 quiet). exact I. Defined.

(** [send.py 0 A] *)
Lemma repetitions_validated_witness :
  main DOT_script int_ascii [lit "send.py"; lit "0"; lit "A"] quiet
  = (Raises (SystemExit 1), World [range_error] None).
Proof.
  apply (repetitions_validated DOT_script int_ascii (lit "send.py") (lit "0") (lit "A") [] 0);
    [reflexivity|lia].
Defined.

(** [send.py 1 E], interrupted during the dot. *)
Lemma interrupt_caught_witness :
  ∃ w',
    main DOT_script int_ascii [lit "send.py"; lit "1"; lit "E"] (World [] (Some 8%nat))
    = (Returns (), w')
    ∧ exit_code
        (main DOT_script int_ascii [lit "send.py"; lit "1"; lit "E"] (World [] (Some 8%nat))).1
      = 0
    ∧ trace w'
      = take 8 (events_of (main DOT_script int_ascii [lit "send.py"; lit "1"; lit "E"]))
          ++ [interrupt_notice; GPIO_output LED_PIN LOW; GPIO_cleanup]
    ∧ line (trace w') = Some LOW
    ∧ deasserts (drop 8 (trace w')) = 1%nat
    ∧ sigint w' = None.
Proof.
  apply (interrupt_caught DOT_script int_ascii (lit "send.py") (lit "1") (lit "E") [] 1 6);
    [reflexivity|lia|vm_compute; lia].
Defined.

(** [send.py 3 SOS] *)
Lemma sos_three_times_witness :
  length (pulses (trace (main DOT_script int_ascii [lit "send.py"; lit "3"; lit "SOS"] quiet).2))
  = 27%nat.
Proof.
  apply (sos_three_times DOT_script int_ascii (lit "send.py") (lit "3")). reflexivity.
Defined.

(** ** Further properties at concrete inputs *)

(** The three dots of S are a symbol space apart. *)
Lemma symbol_gaps_exact_witness :
  gaps (message_events DOT_script (lit "S"))
  = replicate 2 (exact (SYMBOL_SPACE DOT_script)).
Proof. exact (proj1 (proj2 (symbol_gaps_exact DOT_script 83 I))). Defined.

(** "E  T": two spaces add the sleep of the space branch twice. *)
Lemma gap_across_spaces_witness :
  ∃ t,
    waveform (message_events DOT_script (lit "E  T"))
    = waveform (message_events DOT_script (lit "E"))
        ++ Gap t :: code_marks DOT_script (code_of 84)
        ++ waveform_from (Off (Some (after_letter DOT_script)))
             (message_events DOT_script [])
    ∧ (t == exact (SYMBOL_SPACE DOT_script)
            + exact (LETTER_SPACE DOT_script - SYMBOL_SPACE DOT_script)%float
            + times 2 * exact (WORD_SPACE DOT_script - LETTER_SPACE DOT_script)%float)%Q.
Proof.
  apply (gap_across_spaces DOT_script [] 69 [32; 32]%N 84 []); [exact I|exact I|].
  by repeat constructor.
Defined.

(** The two-character string "ab" is skipped. *)
Lemma not_a_single_character_witness :
  send_character DOT_script (lit "ab") quiet = (Returns (), quiet)
  ∧ send_character DOT_script [223%N] quiet = (Returns (), quiet).
Proof. apply (not_a_single_character DOT_script (lit "ab") quiet). by vm_compute. Defined.

(** [send.py] alone. *)
Lemma usage_error_witness :
  main DOT_script int_ascii [lit "send.py"] quiet
  = (Raises (SystemExit 1), World usage_events None).
Proof. apply (usage_error DOT_script int_ascii [lit "send.py"]). simpl. lia. Defined.

(** [send.py x A] *)
Lemma not_a_number_witness :
  main DOT_script int_ascii [lit "send.py"; lit "x"; lit "A"] quiet
  = (Raises (SystemExit 1), World [format_error] None).
Proof.
  apply (not_a_number DOT_script int_ascii [lit "send.py"; lit "x"; lit "A"]);
    [simpl; lia|reflexivity].
Defined.

(** [send.py 2 E] *)
Lemma normal_run_witness :
  main DOT_script int_ascii [lit "send.py"; lit "2"; lit "E"] quiet
  = (Returns (), World (run_events DOT_script 2 (lit "E")) None).
Proof.
  apply (normal_run DOT_script int_ascii (lit "send.py") (lit "2") (lit "E") [] 2);
    [reflexivity|lia].
Defined.

(** [send.py 2 E], interrupted after the first banner line. *)
Lemma interrupt_before_transmission_witness :
  main DOT_script int_ascii [lit "send.py"; lit "2"; lit "E"] (World [] (Some 1%nat))
  = (Raises KeyboardInterrupt, World (take 1 (banner 2 (lit "E"))) None).
Proof.
  apply (interrupt_before_transmission DOT_script int_ascii
           (lit "send.py") (lit "2") (lit "E") [] 2 [] 1);
    [reflexivity|lia|lia].
Defined.

(** [send.py 1 E], interrupted at the first call of the clean-up. *)
Lemma interrupt_during_cleanup_witness :
  line (banner 1 (lit "E") ++ events_of (transmission DOT_script 1 (lit "E"))
          ++ take 0 [GPIO_output LED_PIN LOW; GPIO_cleanup]) = Some LOW.
Proof.
  apply (interrupt_during_cleanup DOT_script int_ascii (lit "send.py") (lit "1") (lit "E") [] 1 0);
    [reflexivity|lia|lia].
Defined.

(** [send.py 1 E], interrupted during the dot. *)
Lemma led_off_at_exit_witness :
  line (trace (main DOT_script int_ascii [lit "send.py"; lit "1"; lit "E"]
                 (World [] (Some 8%nat))).2) = Some LOW.
Proof.
  apply (led_off_at_exit DOT_script int_ascii (lit "send.py") (lit "1") (lit "E") [] 1 (Some 8%nat));
    [reflexivity|lia|].
  intros k [= <-]. lia.
Defined.

(** [send.py 1 E], at the point where the dot has just started. *)
Lemma led_on_only_in_pulses_witness :
  in_pulse (take 8 (run_events DOT_script 1 (lit "E"))) (drop 8 (run_events DOT_script 1 (lit "E"))).
Proof.
  apply (led_on_only_in_pulses DOT_script 1 (lit "E")); [|reflexivity].
  symmetry. apply take_drop.
Defined.
